(** * EW-Automate: the EWSX schedule archive ([unzip.py], [ewsx.py])

    A shallow embedding of the archive expander ([unzip.py]) and of the
    archive model ([ewsx.py]) over an explicit file-system store, and the
    properties of the specification checked against it.

    The functions of the two source files are computations in a monad of
    state and exceptions over a [World]: the store (a finite map from
    resolved paths to files and directories), standard output, and what
    the platform supplies (its name, the names [mkdtemp] picks). The
    library functions they call ([os], [shutil], [tempfile], [zipfile],
    [posixpath]) are modelled next to them, under these conventions:
    - [os.path] is [posixpath]; the working directory is the root of the
      store, and the store has no symbolic links;
    - a path string is resolved name by name, [".."] stepping to the
      parent;
    - a directory lists its entries in one fixed order;
    - a zip container on disk is kept in decoded form, each member with
      what reading it back gives (its bytes, or the exception raised). *)

From Stdlib Require Import ZArith String Ascii List DecimalString.
From Stdlib.Strings Require Import Byte.
From stdpp Require Import base strings list gmap.

(** Let [simpl] compute string concatenation on constructors. *)
#[local] Arguments String.append !s1 s2 : simpl nomatch.

(** ** Python strings *)

Module Str.

(** The two characters that cannot be typed as they are. *)
Definition backslash : string := String (ascii_of_nat 92) EmptyString.
Definition newline : string := String (ascii_of_nat 10) EmptyString.

(** [s.startswith(prefix)] *)
Fixpoint startswith (s prefix : string) : bool :=
  match prefix, s with
  | EmptyString, _ => true
  | String _ _, EmptyString => false
  | String a prefix', String b s' =>
      if Ascii.eqb a b then startswith s' prefix' else false
  end.

(** [sub in s] *)
Fixpoint contains (s sub : string) : bool :=
  if startswith s sub then true
  else match s with
       | EmptyString => false
       | String _ s' => contains s' sub
       end.

(** [s.rfind(c)] for a one-character [c]: the highest index holding
    [c], or [-1]. *)
Fixpoint rfind_from (c : ascii) (s : string) (i found : Z) : Z :=
  match s with
  | EmptyString => found
  | String a s' => rfind_from c s' (i + 1) (if Ascii.eqb a c then i else found)
  end.
Definition rfind (s : string) (c : ascii) : Z := rfind_from c s 0 (-1).

(** [s[i:]] and [s[:i]] for [0 <= i]. *)
Fixpoint drop (n : nat) (s : string) : string :=
  match n, s with
  | O, _ => s
  | S _, EmptyString => EmptyString
  | S n', String _ s' => drop n' s'
  end.
Fixpoint take (n : nat) (s : string) : string :=
  match n, s with
  | O, _ => EmptyString
  | S _, EmptyString => EmptyString
  | S n', String a s' => String a (take n' s')
  end.
Definition slice_from (s : string) (i : Z) : string := drop (Z.to_nat i) s.
Definition slice_to (s : string) (i : Z) : string := take (Z.to_nat i) s.

(** [s.endswith(suffix)]: the last [len(suffix)] characters of [s] are
    [suffix]. *)
Definition endswith (s suffix : string) : bool :=
  (String.length suffix <=? String.length s)%nat
  && String.eqb (drop (String.length s - String.length suffix) s) suffix.

(** [c in chars] for a character. *)
Fixpoint mem (c : ascii) (chars : string) : bool :=
  match chars with
  | EmptyString => false
  | String a chars' => if Ascii.eqb a c then true else mem c chars'
  end.

(** [s.lstrip(chars)], [s.rstrip(chars)], [s.strip(chars)]: the leading
    and trailing characters that belong to the set [chars] are removed. *)
Fixpoint lstrip (s chars : string) : string :=
  match s with
  | EmptyString => EmptyString
  | String a s' => if mem a chars then lstrip s' chars else s
  end.
Definition rstrip (s chars : string) : string :=
  String.rev (lstrip (String.rev s) chars).
Definition strip (s chars : string) : string := rstrip (lstrip s chars) chars.

(** [s.split(c)] for a one-character separator. *)
Fixpoint split (c : ascii) (s : string) : list string :=
  match s with
  | EmptyString => [EmptyString]
  | String a s' =>
      if Ascii.eqb a c then EmptyString :: split c s'
      else match split c s' with
           | [] => [String a EmptyString]
           | w :: ws => String a w :: ws
           end
  end.

(** [sep.join(parts)] *)
Fixpoint join (sep : string) (parts : list string) : string :=
  match parts with
  | [] => EmptyString
  | [p] => p
  | p :: rest => p +:+ sep +:+ join sep rest
  end.

(** [s.replace(a, b)] for one-character [a] and [b]. *)
Fixpoint replace (a b : ascii) (s : string) : string :=
  match s with
  | EmptyString => EmptyString
  | String c s' => String (if Ascii.eqb c a then b else c) (replace a b s')
  end.

(** [c * n] *)
Fixpoint repeat (c : ascii) (n : nat) : string :=
  match n with
  | O => EmptyString
  | S n' => String c (repeat c n')
  end.

(** Truth value of a string: the empty string is false. *)
Definition truthy (s : string) : bool :=
  match s with EmptyString => false | _ => true end.

End Str.

(** ** [posixpath] *)

Module posixpath.

Definition sep : ascii := "/"%char.

(** [i = p.rfind(sep) + 1; return p[i:]] *)
Definition basename (p : string) : string :=
  let i := (Str.rfind p sep + 1)%Z in
  Str.slice_from p i.

(** [split]: head and tail around the last separator; the head loses its
    trailing separators unless it consists of separators only. *)
Definition split (p : string) : string * string :=
  let i := (Str.rfind p sep + 1)%Z in
  let head := Str.slice_to p i in
  let tail := Str.slice_from p i in
  let head :=
    if Str.truthy head && negb (String.eqb head (Str.repeat sep (String.length head)))
    then Str.rstrip head "/" else head in
  (head, tail).

Definition dirname (p : string) : string := fst (split p).

(** [join(a, b)] *)
Definition join (a b : string) : string :=
  if Str.startswith b "/" then b
  else if negb (Str.truthy a) || Str.endswith a "/" then a +:+ b
  else a +:+ "/" +:+ b.

End posixpath.

(** ** [posixpath]: normalisation *)

Module posixpath_norm.

(** The loop of [normpath] over the components. *)
Definition normpath_step (initial_slashes : nat) (new_comps : list string)
    (comp : string) : list string :=
  if bool_decide (comp = "" \/ comp = ".") then new_comps
  else if bool_decide (comp <> "..")
          || (bool_decide (initial_slashes = 0%nat) && bool_decide (new_comps = []))
          || bool_decide (List.last new_comps "" = "..")
  then new_comps ++ [comp]
  else removelast new_comps.

(** [normpath(path)] *)
Definition normpath (path : string) : string :=
  if negb (Str.truthy path) then "."
  else
    let initial_slashes :=
      if Str.startswith path "/" then
        if Str.startswith path "//" && negb (Str.startswith path "///")
        then 2%nat else 1%nat
      else 0%nat in
    let comps := fold_left (normpath_step initial_slashes) (Str.split "/" path) [] in
    let path := Str.repeat "/" initial_slashes +:+ Str.join "/" comps in
    if Str.truthy path then path else ".".

(** [abspath(path)]; the working directory is the root of the store. *)
Definition getcwd : string := "/".
Definition abspath (path : string) : string :=
  normpath (if Str.startswith path "/" then path else posixpath.join getcwd path).

Fixpoint commonprefix_length (l1 l2 : list string) : nat :=
  match l1, l2 with
  | a :: l1', b :: l2' => if bool_decide (a = b) then S (commonprefix_length l1' l2') else O
  | _, _ => O
  end.

(** [relpath(path, start)] for a non-empty [path]. *)
Definition relpath (path start : string) : string :=
  let start_list := filter (fun x => Str.truthy x = true) (Str.split "/" (abspath start)) in
  let path_list := filter (fun x => Str.truthy x = true) (Str.split "/" (abspath path)) in
  let i := commonprefix_length start_list path_list in
  let rel_list := List.repeat ".." (length start_list - i) ++ List.skipn i path_list in
  match rel_list with
  | [] => "."
  | a :: rest => fold_left posixpath.join rest a
  end.

End posixpath_norm.

(** ** Exceptions, printed lines, file contents *)

Inductive exn :=
  | FileNotFoundError
  | FileExistsError
  | NotADirectoryError
  | IsADirectoryError
  | SameFileError
  | ShutilError
  | BadZipFile
  | ZlibError
  | EOFError
  | AttributeError
  | RecursionError
  | UnicodeEncodeError.

(** [IOError] is [OSError]: the file-system errors and those of [shutil]. *)
Definition is_IOError (e : exn) : bool :=
  match e with
  | FileNotFoundError | FileExistsError | NotADirectoryError
  | IsADirectoryError | SameFileError | ShutilError => true
  | _ => false
  end.

Inductive compression := ZIP_STORED | ZIP_DEFLATED.

(** What a member of a zip container yields when it is read back. *)
Inductive member_data (A : Type) :=
  | Intact (data : A)      (* opens, and [read()] returns [data] *)
  | Unopenable (e : exn)   (* [z.open] raises [e] *)
  | Corrupt (e : exn).     (* opens, and [read()] raises [e] *)
Arguments Intact {A} data.
Arguments Unopenable {A} e.
Arguments Corrupt {A} e.

Record member_of (A : Type) := Member {
  filename : string;
  compress_type : compression;
  stored : member_data A
}.
Arguments Member {A}.
Arguments filename {A}.
Arguments compress_type {A}.
Arguments stored {A}.

#[local] Set Warnings "-register-all".

(** A Python [bytes] value. The byte strings that are zip containers are
    kept in decoded form: their encoding belongs to [zipfile]. *)
Inductive bytes :=
  | Raw (data : list byte)
  | ZipImage (members : list (member_of bytes)).

Definition member := member_of bytes.

Inductive node :=
  | File (data : bytes)
  | Dir.

(** A file-system path, resolved: the names from the root down. *)
Definition path := list string.

(** What [print] wrote. *)
Inductive output :=
  | Error_extracting (file : string) (e : exn)
  | Successfully_saved (abspath : string)
  | Schedule_expanded (abspath : string).

(** ** The world: the store, standard output, the platform *)

Record World := mkWorld {
  disk : gmap (list string) node;     (* every file and directory; the root is implicit *)
  stdout : list output;
  zip_out : list member;              (* members of the archive open for writing *)
  platform_system : string;           (* [platform.system()] *)
  temp_candidates : list string;      (* the names [mkdtemp] will try, in order *)
  zip_buffered : bool;                (* the archive that is read lies whole in the
                                         buffer of its reader: a small archive *)
  stdout_encodes : output -> bool     (* the lines the encoding of the stream can take *)
}.

Definition set_disk (d : gmap (list string) node) (w : World) : World :=
  mkWorld d (stdout w) (zip_out w) (platform_system w) (temp_candidates w)
          (zip_buffered w) (stdout_encodes w).
Definition set_stdout (o : list output) (w : World) : World :=
  mkWorld (disk w) o (zip_out w) (platform_system w) (temp_candidates w)
          (zip_buffered w) (stdout_encodes w).
Definition set_zip_out (z : list member) (w : World) : World :=
  mkWorld (disk w) (stdout w) z (platform_system w) (temp_candidates w)
          (zip_buffered w) (stdout_encodes w).
Definition set_temp_candidates (c : list string) (w : World) : World :=
  mkWorld (disk w) (stdout w) (zip_out w) (platform_system w) c
          (zip_buffered w) (stdout_encodes w).

(** ** Computations: state and exceptions *)

Inductive outcome (A : Type) :=
  | Returns (a : A)
  | Raises (e : exn).
Arguments Returns {A} a.
Arguments Raises {A} e.

Definition M (A : Type) : Type := World -> World * outcome A.

Definition ret {A} (a : A) : M A := fun w => (w, Returns a).
Definition raise {A} (e : exn) : M A := fun w => (w, Raises e).
Definition bind {A B} (m : M A) (f : A -> M B) : M B := fun w =>
  match m w with
  | (w', Returns a) => f a w'
  | (w', Raises e) => (w', Raises e)
  end.

Declare Scope py_scope.
Delimit Scope py_scope with py.
Notation "x <- m ;; k" := (bind m (fun x => k))
  (at level 100, m at next level, right associativity) : py_scope.
Notation "m ;; k" := (bind m (fun _ => k))
  (at level 100, right associativity) : py_scope.
Local Open Scope py_scope.

(** [try: body except Exception as e: handler(e)] *)
Definition try_except {A} (body : M A) (handler : exn -> M A) : M A := fun w =>
  match body w with
  | (w', Returns a) => (w', Returns a)
  | (w', Raises e) => handler e w'
  end.

(** [try: body finally: cleanup], the shape of a [with] block whose exit
    does not raise. *)
Definition finally {A} (body : M A) (cleanup : World -> World) : M A := fun w =>
  let '(w', r) := body w in (cleanup w', r).

(** [for x in l: body(x)] *)
Fixpoint for_each {A} (l : list A) (body : A -> M unit) : M unit :=
  match l with
  | [] => ret tt
  | x :: l' => body x ;; for_each l' body
  end.

(** A loop that carries an accumulator. *)
Fixpoint for_fold {A S} (l : list A) (s : S) (body : S -> A -> M S) : M S :=
  match l with
  | [] => ret s
  | x :: l' => s' <- body s x ;; for_fold l' s' body
  end.

(** [print(line)]: a line the stream cannot encode raises and nothing of
    it is written. *)
Definition print (o : output) : M unit := fun w =>
  if stdout_encodes w o then (set_stdout (stdout w ++ [o]) w, Returns tt)
  else (w, Raises UnicodeEncodeError).

(** ** [os], [shutil], [tempfile]: the store *)

Module os.

(** Resolution of a path string. The working directory is the root; the
    store has no symbolic links, so [".."] steps to the parent. *)
Definition resolve_step (acc : path) (comp : string) : path :=
  if bool_decide (comp = "" \/ comp = ".") then acc
  else if bool_decide (comp = "..") then removelast acc
  else acc ++ [comp].
Definition resolve_from (base : path) (p : string) : path :=
  fold_left resolve_step (Str.split "/" p) base.
Definition resolve (p : string) : path := resolve_from [] p.

Definition stat (d : gmap (list string) node) (k : path) : option node :=
  match k with
  | [] => Some Dir
  | _ => d !! k
  end.

(** The error met on the way down to [done ++ rest], its last name
    excluded: every directory on the way must exist. *)
Fixpoint lookup_error (d : gmap (list string) node) (done rest : path) : option exn :=
  match rest with
  | [] => None
  | [_] =>
      match stat d done with
      | Some Dir => None
      | Some (File _) => Some NotADirectoryError
      | None => Some FileNotFoundError
      end
  | c :: rest' =>
      match stat d done with
      | Some Dir => lookup_error d (done ++ [c]) rest'
      | Some (File _) => Some NotADirectoryError
      | None => Some FileNotFoundError
      end
  end.
Definition parent_error (d : gmap (list string) node) (k : path) : option exn :=
  lookup_error d [] k.

(** The names in directory [k]. *)
Fixpoint below (k q : path) : option path :=
  match k, q with
  | [], _ => Some q
  | a :: k', b :: q' => if bool_decide (a = b) then below k' q' else None
  | _ :: _, [] => None
  end.
Definition child_name (k q : path) : option string :=
  match below k q with
  | Some [c] => Some c
  | _ => None
  end.
Definition children (d : gmap (list string) node) (k : path) : gset string :=
  set_omap (child_name k) (dom d).

Definition isdir_key (d : gmap (list string) node) (k : path) : bool :=
  match stat d k with Some Dir => true | _ => false end.
Definition isdir (p : string) : M bool := fun w =>
  (w, Returns (isdir_key (disk w) (resolve p))).

(** [os.mkdir(p)] *)
Definition mkdir (p : string) : M unit := fun w =>
  let k := resolve p in
  if negb (Str.truthy p) then (w, Raises FileNotFoundError)
  else match parent_error (disk w) k with
       | Some e => (w, Raises e)
       | None =>
           match stat (disk w) k with
           | Some _ => (w, Raises FileExistsError)
           | None => (set_disk (<[k := Dir]> (disk w)) w, Returns tt)
           end
       end.

(** [os.makedirs(p, exist_ok=True)]: the missing directories are made
    from the top down; a file on the way, or at the end, is an error. *)
Fixpoint makedirs_from (done rest : path) (d : gmap (list string) node)
    : gmap (list string) node * outcome unit :=
  match rest with
  | [] => (d, Returns tt)
  | c :: rest' =>
      let k := done ++ [c] in
      match stat d k with
      | Some Dir => makedirs_from k rest' d
      | Some (File _) =>
          (d, Raises (match rest' with [] => FileExistsError | _ => NotADirectoryError end))
      | None => makedirs_from k rest' (<[k := Dir]> d)
      end
  end.
Definition makedirs (p : string) : M unit := fun w =>
  if negb (Str.truthy p) then (w, Raises FileNotFoundError)
  else let '(d, r) := makedirs_from [] (resolve p) (disk w) in (set_disk d w, r).

(** [os.listdir(p)] *)
Definition listdir (p : string) : M (list string) := fun w =>
  let k := resolve p in
  if negb (Str.truthy p) then (w, Raises FileNotFoundError)
  else match parent_error (disk w) k with
       | Some e => (w, Raises e)
       | None =>
           match stat (disk w) k with
           | Some Dir => (w, Returns (elements (children (disk w) k)))
           | Some (File _) => (w, Raises NotADirectoryError)
           | None => (w, Raises FileNotFoundError)
           end
       end.

(** [open(p, "wb+")]: the file is created or truncated; the handle is
    the place of the file. *)
Definition open_wb (p : string) : M path := fun w =>
  let k := resolve p in
  if negb (Str.truthy p) then (w, Raises FileNotFoundError)
  else match parent_error (disk w) k with
       | Some e => (w, Raises e)
       | None =>
           match stat (disk w) k with
           | Some Dir => (w, Raises IsADirectoryError)
           | Some (File _) =>
               if Str.endswith p "/" then (w, Raises NotADirectoryError)
               else (set_disk (<[k := File (Raw [])]> (disk w)) w, Returns k)
           | None =>
               if Str.endswith p "/" then (w, Raises IsADirectoryError)
               else (set_disk (<[k := File (Raw [])]> (disk w)) w, Returns k)
           end
       end.

(** [handle.write(data)]: lands in the file the handle was opened on,
    while that file is still in the tree. *)
Definition write (handle : path) (data : bytes) : M unit := fun w =>
  match disk w !! handle with
  | Some (File _) => (set_disk (<[handle := File data]> (disk w)) w, Returns tt)
  | _ => (w, Returns tt)
  end.

(** [open(p, "rb+").read()] *)
Definition read (p : string) : M bytes := fun w =>
  let k := resolve p in
  if negb (Str.truthy p) then (w, Raises FileNotFoundError)
  else match parent_error (disk w) k with
       | Some e => (w, Raises e)
       | None =>
           match stat (disk w) k with
           | Some Dir => (w, Raises IsADirectoryError)
           | Some (File data) =>
               if Str.endswith p "/" then (w, Raises NotADirectoryError)
               else (w, Returns data)
           | None => (w, Raises FileNotFoundError)
           end
       end.

(** [os.walk(top)], top-down: one triple [(root, dirs, files)] for the
    directory and then those of each sub-directory. A [top] that cannot
    be listed yields nothing. The depth is bounded by the number of
    entries of the store. *)
Fixpoint walk_from (fuel : nat) (d : gmap (list string) node)
    (k : path) (top : string) : list (string * list string * list string) :=
  match fuel with
  | O => []
  | S fuel' =>
      let names := elements (children d k) in
      let dirs := filter (fun c => isdir_key d (k ++ [c]) = true) names in
      let nondirs := filter (fun c => isdir_key d (k ++ [c]) = false) names in
      (top, dirs, nondirs)
        :: concat (map (fun c => walk_from fuel' d (k ++ [c]) (posixpath.join top c)) dirs)
  end.
Definition walk (top : string) : M (list (string * list string * list string)) := fun w =>
  let k := resolve top in
  (w, Returns (if isdir_key (disk w) k
               then walk_from (S (size (disk w))) (disk w) k top else [])).

End os.

Module shutil.

(** [shutil.rmtree(p)], as the clean-up of a temporary directory uses
    it: the directory and everything below it go; a missing directory
    is no error. *)
Definition rmtree_key (k : path) (d : gmap (list string) node) : gmap (list string) node :=
  filter (fun kv => ~ k `prefix_of` kv.1) d.

(** [shutil.copyfile] on resolved places, after the checks of [copy]. *)
Definition copyfile (src dst : string) : M unit :=
  if bool_decide (os.resolve src = os.resolve dst) then raise SameFileError
  else
    data <- os.read src ;;
    h <- os.open_wb dst ;;
    os.write h data.

(** [shutil.copy(src, dst)] *)
Definition copy (src dst : string) : M unit :=
  dst_is_dir <- os.isdir dst ;;
  let dst := if dst_is_dir : bool then posixpath.join dst (posixpath.basename src) else dst in
  copyfile src dst.

(** [shutil.copytree(src, dst, dirs_exist_ok=True)]: [dst] and the
    missing directories above it are made, every entry of [src] is
    copied; the errors of the entries are collected and raised at the
    end as one [shutil.Error]. *)
Fixpoint copytree_from (fuel : nat) (src dst : string) : M unit :=
  match fuel with
  | O => raise RecursionError
  | S fuel' =>
      names <- os.listdir src ;;
      os.makedirs dst ;;
      failed <- for_fold names false (fun failed name =>
        let srcname := posixpath.join src name in
        let dstname := posixpath.join dst name in
        is_dir <- os.isdir srcname ;;
        try_except
          ((if is_dir : bool then copytree_from fuel' srcname dstname
            else copyfile srcname dstname) ;; ret failed)
          (fun e => if is_IOError e then ret true else raise e)) ;;
      if failed : bool then raise ShutilError else ret tt
  end.
Definition copytree (src dst : string) : M unit := fun w =>
  copytree_from (S (size (disk w))) src dst w.

End shutil.

Module tempfile.

(** [mkdtemp]: the first candidate name that is free becomes a new
    directory; a candidate that exists is skipped, any other failure of
    [mkdir] is raised; with no candidate left, [FileExistsError]. *)
Fixpoint mkdtemp_from (candidates : list string) : M string :=
  match candidates with
  | [] => fun w => (set_temp_candidates [] w, Raises FileExistsError)
  | c :: rest => fun w =>
      match os.mkdir c w with
      | (w', Returns _) => (set_temp_candidates rest w', Returns c)
      | (w', Raises FileExistsError) => mkdtemp_from rest w'
      | (w', Raises e) => (set_temp_candidates rest w', Raises e)
      end
  end.
Definition mkdtemp : M string := fun w => mkdtemp_from (temp_candidates w) w.

Definition cleanup (name : string) (w : World) : World :=
  set_disk (shutil.rmtree_key (os.resolve name) (disk w)) w.

(** [with tempfile.TemporaryDirectory() as name: body(name)] *)
Definition TemporaryDirectory {A} (body : string -> M A) : M A :=
  name <- mkdtemp ;;
  finally (body name) (cleanup name).

End tempfile.

(** ** [zipfile] *)

Module zipfile.

(** An archive open for reading: the place of its file, and the
    directory that was read when it was opened. *)
Record ZipFile := mkZipFile {
  fp : path;
  infolist : list member
}.

(** [zipfile.ZipFile(filepath, "r")] *)
Definition open_r (filepath : string) : M ZipFile :=
  data <- os.read filepath ;;
  match data with
  | ZipImage members => ret (mkZipFile (os.resolve filepath) members)
  | Raw _ => raise BadZipFile
  end.

Definition namelist (z : ZipFile) : list string := map filename (infolist z).

(** [getinfo(name)]: of several members by one name, the last wins. *)
Definition getinfo (z : ZipFile) (name : string) : option member :=
  List.find (fun m => bool_decide (filename m = name)) (rev (infolist z)).

(** The archive is read through its file and the buffer of its reader:
    once the file is no longer a zip container (a write truncated it),
    only what the buffer holds can still be read. *)
Definition backing_file_intact (z : ZipFile) (w : World) : bool :=
  match disk w !! fp z with
  | Some (File (ZipImage _)) => true
  | _ => false
  end.
Definition readable (z : ZipFile) (w : World) : bool :=
  backing_file_intact z w || zip_buffered w.

(** A stored member of no bytes is read without a look at the file. *)
Definition empty_stored (source : member) : bool :=
  match compress_type source, stored source with
  | ZIP_STORED, Intact (Raw []) => true
  | _, _ => false
  end.

(** [z.open(name)] *)
Definition open (z : ZipFile) (name : string) : M member := fun w =>
  if readable z w then
    match getinfo z name with
    | Some m =>
        match stored m with
        | Unopenable e => (w, Raises e)
        | _ => (w, Returns m)
        end
    | None => (w, Raises BadZipFile)
    end
  else (w, Raises BadZipFile).

(** [source.read()]. The check of the CRC is switched off by
    [ExpandEWSXFile], so a member whose CRC is wrong is [Intact]. *)
Definition read (z : ZipFile) (source : member) : M bytes := fun w =>
  if readable z w || empty_stored source then
    match stored source with
    | Intact data => (w, Returns data)
    | Corrupt e => (w, Raises e)
    | Unopenable e => (w, Raises e)
    end
  else (w, Raises EOFError).

(** [with zipfile.ZipFile(filename, "w", compression) as z: body]: the
    file is created or truncated; on exit, however the body ends, the
    members written so far become its content. *)
Definition close (handle : path) (w : World) : World :=
  fst (os.write handle (ZipImage (zip_out w)) w).
Definition open_w {A} (filename : string) (body : compression -> M A)
    (method : compression) : M A :=
  handle <- os.open_wb filename ;;
  (fun w => (set_zip_out [] w, Returns tt)) ;;
  finally (body method) (close handle).

(** [z.write(filename, arcname)]: the member is named by the normalised
    [arcname] without leading separators; a directory gives an empty
    member whose name ends with ["/"]. *)
Definition write (method : compression) (filename arcname : string) : M unit :=
  let arcname := Str.lstrip (posixpath_norm.normpath arcname) "/" in
  is_dir <- os.isdir filename ;;
  if is_dir : bool then
    fun w => (set_zip_out (zip_out w ++ [Member (arcname +:+ "/") ZIP_STORED (Intact (Raw []))]) w,
              Returns tt)
  else
    data <- os.read filename ;;
    fun w => (set_zip_out (zip_out w ++ [Member arcname method (Intact data)]) w, Returns tt).

End zipfile.

(** ** [unzip.py] *)

Module unzip.

(** [is_directory(name)], with [os.path] the POSIX flavour. *)
Definition is_directory (name : string) : bool :=
  if Str.endswith name "/" || Str.endswith name Str.backslash then true
  else if negb (Str.contains (posixpath.basename name) ".") then true
  else false.

Definition system : M string := fun w => (w, Returns (platform_system w)).

(** The name the member is written under: on Darwin the name is
    normalised and its backslashes become ["/"]. *)
Definition out_file (platform file : string) : string :=
  if bool_decide (platform = "Darwin")
  then Str.replace (ascii_of_nat 92) "/" (posixpath_norm.normpath file)
  else file.

(** The body of the [try] in [ExpandEWSXFile]: the member is opened, the
    target file is opened (and so truncated), the member is read, and
    what was read is written. *)
Definition copy_member (z : zipfile.ZipFile) (output_dir file : string) : M unit :=
  platform <- system ;;
  let out_path := posixpath.join output_dir (out_file platform file) in
  source <- zipfile.open z file ;;
  target <- os.open_wb out_path ;;
  data <- zipfile.read z source ;;
  os.write target data.

(** One turn of the loop of [ExpandEWSXFile]. *)
Definition extract_entry (z : zipfile.ZipFile) (output_dir file : string) : M unit :=
  let out_path := posixpath.join output_dir file in
  if is_directory file then os.makedirs out_path
  else
    os.makedirs (posixpath.dirname out_path) ;;
    try_except (copy_member z output_dir file)
               (fun e => print (Error_extracting file e)).

(** [ExpandEWSXFile(filepath, output_dir)] *)
Definition ExpandEWSXFile (filepath output_dir : string) : M unit :=
  z <- zipfile.open_r filepath ;;
  for_each (zipfile.namelist z) (extract_entry z output_dir).

End unzip.

(** ** [ewsx.py] *)

Module ewsx.

(** The object: [existing_file] is set by [__init__]; [files_list] and
    [dirs_list] exist only once [from_file] has run. *)
Record EWSXFIle := mkEWSXFIle {
  existing_file : option string;
  files_list : option (list (string * bytes));
  dirs_list : option (list string)
}.

Definition __init__ : EWSXFIle := mkEWSXFIle None None None.

(** The truth value of [self.existing_file]. *)
Definition has_existing_file (self : EWSXFIle) : bool :=
  match existing_file self with
  | Some f => Str.truthy f
  | None => false
  end.

(** Reading an attribute that may not exist. *)
Definition attr {A} (a : option A) : outcome A :=
  match a with
  | Some v => Returns v
  | None => Raises AttributeError
  end.
Definition getattr {A} (a : option A) : M A := fun w => (w, attr a).

Definition template : string := "./sample_files/main.db".

(** [str(num)] *)
Definition str (n : nat) : string := NilEmpty.string_of_uint (Nat.to_uint n).

(** The staging tree, built the same way by [save] and [expand_to_dir]. *)
Definition stage (self : EWSXFIle) (temp_dir : string) : M unit :=
  if negb (has_existing_file self) then
    os.mkdir (posixpath.join temp_dir "media") ;;
    f <- os.open_wb (posixpath.join temp_dir "main.db") ;;
    data <- os.read template ;;
    os.write f data
  else
    dirs <- getattr (dirs_list self) ;;
    for_each dirs (fun dir => os.makedirs (posixpath.join temp_dir dir)) ;;
    files <- getattr (files_list self) ;;
    for_each files (fun file =>
      h <- os.open_wb (posixpath.join temp_dir (fst file)) ;;
      os.write h (snd file)).

(** [save(filename)] *)
Definition save (self : EWSXFIle) (filename : string) : M unit :=
  zipfile.open_w filename (fun z =>
    tempfile.TemporaryDirectory (fun temp_dir =>
      stage self temp_dir ;;
      triples <- os.walk temp_dir ;;
      for_each triples (fun triple =>
        let '(root, _, files) := triple in
        for_each files (fun file =>
          let full_path := posixpath.join root file in
          let rel_path := posixpath_norm.relpath full_path temp_dir in
          zipfile.write z full_path rel_path)))) ZIP_DEFLATED ;;
  print (Successfully_saved (posixpath_norm.abspath filename)).

Definition append_file (self : EWSXFIle) (entry : string * bytes) : M EWSXFIle :=
  l <- getattr (files_list self) ;;
  ret (mkEWSXFIle (existing_file self) (Some (l ++ [entry])) (dirs_list self)).
Definition append_dir (self : EWSXFIle) (dir : string) : M EWSXFIle :=
  l <- getattr (dirs_list self) ;;
  ret (mkEWSXFIle (existing_file self) (files_list self) (Some (l ++ [dir]))).

(** [from_file(filename)]; the object it returns is [self], updated. *)
Definition from_file (self : EWSXFIle) (filename : string) : M EWSXFIle :=
  let self := mkEWSXFIle (Some filename) (Some []) (Some []) in
  tempfile.TemporaryDirectory (fun output_dir =>
    unzip.ExpandEWSXFile filename output_dir ;;
    triples <- os.walk output_dir ;;
    for_fold triples self (fun self triple =>
      let '(root, dirs, files) := triple in
      self <- for_fold files self (fun self file =>
        let full_path := posixpath.join root file in
        let rel_path := posixpath_norm.relpath full_path output_dir in
        data <- os.read full_path ;;
        append_file self (rel_path, data)) ;;
      for_fold dirs self append_dir)).

(** One turn of the loop of [expand_to_dir]: an entry of the staging
    tree goes to the schedule directory. *)
Definition copy_out (temp_dir schedule_path file : string) : M unit :=
  if unzip.is_directory file then
    let dir_path := posixpath.join schedule_path file in
    os.mkdir dir_path ;;
    shutil.copytree (posixpath.join temp_dir file) dir_path
  else
    shutil.copy (posixpath.join temp_dir file) schedule_path.

(** The body of the [with] block of [expand_to_dir]. *)
Definition materialize (self : EWSXFIle) (output_dir temp_dir : string) : M string :=
  stage self temp_dir ;;
  entries <- os.listdir output_dir ;;
  let num := (length entries + 1)%nat in
  let schedule_path := posixpath.join output_dir ("schedule" +:+ str num) in
  os.makedirs schedule_path ;;
  staged <- os.listdir temp_dir ;;
  for_each staged (copy_out temp_dir schedule_path) ;;
  ret schedule_path.

(** [expand_to_dir(output_dir)] *)
Definition expand_to_dir (self : EWSXFIle) (output_dir : string) : M unit :=
  os.makedirs output_dir ;;
  schedule_path <- tempfile.TemporaryDirectory (materialize self output_dir) ;;
  print (Schedule_expanded
           (posixpath_norm.abspath (posixpath.join output_dir schedule_path))).

(** The inner loop of [structure]: the files that start with [f]. *)
Definition structure_files (f : string) (files_set : list string)
    (explored : list string) : list string * list string :=
  fold_left (fun acc x =>
               let '(files, explored) := acc in
               if Str.startswith x f
               then (files ++ [Str.strip x ("/" +:+ f)], explored ++ [x])
               else (files, explored))
            files_set ([], explored).

(** One turn of the outer loop of [structure]. *)
Definition structure_step (files_set : list string)
    (acc : list string * string) (f : string) : list string * string :=
  let '(explored, struct) := acc in
  if unzip.is_directory f then
    let struct := struct +:+ f +:+ "/" +:+ Str.newline in
    let '(files, explored) := structure_files f files_set explored in
    let struct :=
      match files with
      | [] => struct
      | _ => struct +:+ "    " +:+ Str.join (Str.newline +:+ "    ") files +:+ Str.newline
      end in
    (explored ++ [f], struct)
  else
    let struct :=
      if bool_decide (f ∈ explored) then struct else struct +:+ f in
    (explored ++ [f], struct).

(** [structure()] *)
Definition structure_text (self : EWSXFIle) : outcome string :=
  let sets :=
    if has_existing_file self then
      match attr (files_list self) with
      | Raises e => Raises e
      | Returns files =>
          match attr (dirs_list self) with
          | Raises e => Raises e
          | Returns dirs => Returns (map fst files, dirs)
          end
      end
    else Returns (["main.db"], ["media"]) in
  match sets with
  | Raises e => Raises e
  | Returns (files_set, dirs_set) =>
      Returns (snd (fold_left (structure_step files_set) (dirs_set ++ files_set) ([], "")))
  end.
Definition structure (self : EWSXFIle) : M string := fun w => (w, structure_text self).

(** [Create()] *)
Definition Create : M EWSXFIle := ret __init__.

End ewsx.

(** ** The specification's wording *)

(** The heuristic as the specification words it. *)
Module HeuristicSpec.

Definition ends_with_separator (n : string) : Prop :=
  exists d, n = d +:+ "/" \/ n = d +:+ Str.backslash.

(** The final path segment: what follows the last ["/"]. *)
Definition final_segment (n : string) : string :=
  List.last (Str.split "/" n) EmptyString.

Definition has_dot (s : string) : Prop :=
  exists a b, s = a +:+ "." +:+ b.

End HeuristicSpec.


(** ** Worlds used as examples *)

(** An archive of three members, the second with broken deflate data. *)
Definition partial_archive : bytes :=
  ZipImage [Member "a.txt" ZIP_DEFLATED (Intact (Raw [x61]));
            Member "b.txt" ZIP_DEFLATED (Corrupt ZlibError);
            Member "c.txt" ZIP_DEFLATED (Intact (Raw [x63]))].
Definition partial_world : World :=
  mkWorld (list_to_map [(["s.ewsx"], File partial_archive)]) [] [] "Linux" [] true (fun _ => true).

(** The stages of expanding [partial_archive] into ["out"]. *)
Definition partial_zip : zipfile.ZipFile :=
  zipfile.mkZipFile ["s.ewsx"]
    [Member "a.txt" ZIP_DEFLATED (Intact (Raw [x61]));
     Member "b.txt" ZIP_DEFLATED (Corrupt ZlibError);
     Member "c.txt" ZIP_DEFLATED (Intact (Raw [x63]))].
Definition partial_after_a : World :=
  fst (unzip.extract_entry partial_zip "out" "a.txt" partial_world).


(** A schedule of the usual layout: the directory [media/] and the file
    [main.db]. *)
Definition usual_archive : bytes :=
  ZipImage [Member "media/" ZIP_STORED (Intact (Raw []));
            Member "main.db" ZIP_DEFLATED (Intact (Raw [x53; x51; x4c]))].
Definition usual_world : World :=
  mkWorld (list_to_map [(["a.ewsx"], File usual_archive); (["tmp"], Dir)])
          [] [] "Linux" ["/tmp/tmpb1"; "/tmp/tmpb2"; "/tmp/tmpb3"] true (fun _ => true).

(** A schedule with one picture in a nested directory. *)
Definition nested_archive : bytes :=
  ZipImage [Member "media/images/a.png" ZIP_DEFLATED (Intact (Raw [x89]))].
Definition nested_world : World :=
  mkWorld (list_to_map [(["n.ewsx"], File nested_archive); (["tmp"], Dir)])
          [] [] "Linux" ["/tmp/tmpc1"; "/tmp/tmpc2"] true (fun _ => true).

(** A schedule with one picture in [media]. *)
Definition picture_archive : bytes :=
  ZipImage [Member "media/image.png" ZIP_DEFLATED (Intact (Raw [x89]))].
Definition picture_world : World :=
  mkWorld (list_to_map [(["p.ewsx"], File picture_archive); (["tmp"], Dir)])
          [] [] "Linux" ["/tmp/tmpd1"] true (fun _ => true).

(** Load, save, load again. *)
Definition load_save_load (original saved : string) : M (ewsx.EWSXFIle * ewsx.EWSXFIle) :=
  first <- ewsx.from_file ewsx.__init__ original ;;
  ewsx.save first saved ;;
  second <- ewsx.from_file ewsx.__init__ saved ;;
  ret (first, second).

(** An archive that lies in the directory it is expanded into and has a
    member of its own name. *)
Definition self_archive : bytes :=
  ZipImage [Member "self.ewsx" ZIP_DEFLATED (Intact (Raw [x01]))].
Definition self_world : World :=
  mkWorld (list_to_map [(["out"], Dir); (["out"; "self.ewsx"], File self_archive)])
          [] [] "Linux" [] true (fun _ => true).

(** ** Well-formed names and stores *)

(** A name that can stand for one entry of a directory. *)
Definition proper_name (c : string) : Prop :=
  c <> "" /\ c <> "." /\ c <> ".." /\ Str.split "/" c = [c].

(** Every entry of the store is reached through proper names. *)
Definition proper_disk (d : gmap (list string) node) : Prop :=
  forall k : path, is_Some (d !! k) -> Forall proper_name k.

(** A relative path that never steps upwards. *)
Definition safe_name (p : string) : Prop :=
  Str.startswith p "/" = false /\ ".." ∉ Str.split "/" p.

(** One of two places lies in the other. *)
Definition comparable (k q : path) : Prop := k `prefix_of` q \/ q `prefix_of` k.


(** The store changed from [d] to [d'] by writes at places of [S] only,
    none of which replaced a directory or removed an entry. *)
Definition writes_in (S : path -> Prop) (d d' : gmap (list string) node) : Prop :=
  forall k : path,
    d' !! k = d !! k \/ (S k /\ d !! k <> Some Dir /\ is_Some (d' !! k)).

(** A computation whose writes, from a well-formed store, stay in [S]. *)
Definition confined {A} (S : path -> Prop) (m : M A) : Prop :=
  forall (w w' : World) (r : outcome A),
    proper_disk (disk w) -> m w = (w', r) -> writes_in S (disk w) (disk w').

(** [S] holds every well-formed place that lies on the way to [Z] or
    below it. *)
Definition zone (S : path -> Prop) (Z : path) : Prop :=
  forall q : path, Forall proper_name q -> comparable q Z -> S q.

(** The paths an object stages are relative and never step upwards. *)
Definition staging_safe (self : ewsx.EWSXFIle) : Prop :=
  Forall safe_name (default [] (ewsx.dirs_list self)) /\
  Forall (fun file => safe_name (fst file)) (default [] (ewsx.files_list self)).

(** The place of the numbered directory that [expand_to_dir] fills, for
    an output directory at [out] in the store [d]. *)
Definition schedule_target (d : gmap (list string) node) (out : path) : path :=
  out ++ ["schedule" +:+ ewsx.str (length (elements (os.children d out)) + 1)].


(** An output directory that holds two earlier expansions. *)
Definition twice_expanded_world : World :=
  mkWorld (list_to_map
             [(["sample_files"], Dir);
              (["sample_files"; "main.db"], File (Raw [x53; x51]));
              (["tmp"], Dir);
              (["schedules"], Dir);
              (["schedules"; "schedule1"], Dir);
              (["schedules"; "schedule1"; "main.db"], File (Raw [x01]));
              (["schedules"; "schedule2"], Dir);
              (["schedules"; "schedule2"; "main.db"], File (Raw [x02]))])
          [] [] "Linux" ["/tmp/tmpe1"; "/tmp/tmpe2"] true (fun _ => true).


(** The well-formed places on the way to [Z] or below it. *)
Definition around (Z : path) (k : path) : Prop :=
  Forall proper_name k /\ comparable k Z.


(** An object as [from_file(filename)] leaves it: the origin is set and
    both lists exist. *)
Definition loaded_from (filename : string) (a : ewsx.EWSXFIle) : Prop :=
  ewsx.existing_file a = Some filename /\
  is_Some (ewsx.files_list a) /\ is_Some (ewsx.dirs_list a).

(** ** The listing without nesting *)

(** The line of [structure] for a name under which nothing is listed: a
    name taken for a directory is followed by ["/"] and a line break, any
    other name stands as it is. *)
Definition listing_line (f : string) : string :=
  if unzip.is_directory f then f +:+ "/" +:+ Str.newline else f.
Definition listing (names : list string) : string :=
  fold_right String.append "" (map listing_line names).

(** ** What is printed *)

(** The computation prints nothing. *)
Definition quiet {A} (m : M A) : Prop :=
  forall (w w' : World) (r : outcome A), m w = (w', r) -> stdout w' = stdout w.

(** An archive whose one member is a file with a name without a dot. *)
Definition readme_archive : bytes :=
  ZipImage [Member "README" ZIP_DEFLATED (Intact (Raw [x68; x69]))].
Definition readme_world : World :=
  mkWorld (list_to_map [(["r.ewsx"], File readme_archive)])
          [] [] "Linux" ["/tmp/tmpr1"] true (fun _ => true).

(** The directory [ExpandEWSXFile] makes for an entry, outside its [try]:
    the entry itself when it is taken for a directory, its parent else. *)
Definition entry_directory (output_dir file : string) : string :=
  if unzip.is_directory file then posixpath.join output_dir file
  else posixpath.dirname (posixpath.join output_dir file).

(** An archive with a member whose deflate data is broken and, further
    on, a member below the name of a file member. *)
Definition blocked_archive : bytes :=
  ZipImage [Member "b.txt" ZIP_DEFLATED (Corrupt ZlibError);
            Member "a.txt" ZIP_DEFLATED (Intact (Raw [x61]));
            Member "a.txt/c.txt" ZIP_DEFLATED (Intact (Raw [x63]));
            Member "z.txt" ZIP_DEFLATED (Intact (Raw [x7a]))].
Definition blocked_world : World :=
  mkWorld (list_to_map [(["k.ewsx"], File blocked_archive)])
          [] [] "Linux" [] true (fun _ => true).


(** Every entry lies in a directory. *)
Definition closed_disk (d : gmap (list string) node) : Prop :=
  forall (k : path) (c : string), is_Some (d !! (k ++ [c])) -> os.stat d k = Some Dir.

(** The tree below [dst] in [d'] is the tree below [src] in [d]. *)
Definition copy_of (d : gmap (list string) node) (src : path)
    (d' : gmap (list string) node) (dst : path) : Prop :=
  forall q : path, q <> [] -> d' !! (dst ++ q) = d !! (src ++ q).


(** A computation that keeps the store closed. *)
Definition keeps_closed {A} (m : M A) : Prop :=
  forall (w w' : World) (r : outcome A),
    closed_disk (disk w) -> m w = (w', r) -> closed_disk (disk w').

(** The state of a copy of the tree below [src] in [d0] to [dst], once
    the entries [done] of [src] are copied: the source is as in [d0],
    [dst] is a directory, it holds the entries that are done as [d0]
    holds them below [src], and nothing under any other name. *)
Definition copying (d0 : gmap (list string) node) (src dst : path)
    (done : list string) (d : gmap (list string) node) : Prop :=
  proper_disk d /\
  (forall q : path, d !! (src ++ q) = d0 !! (src ++ q)) /\
  os.stat d dst = Some Dir /\
  (forall (c : string) (q : path), c ∈ done -> d !! (dst ++ c :: q) = d0 !! (src ++ c :: q)) /\
  (forall (c : string) (q : path), c ∉ done -> d !! (dst ++ c :: q) = None).


(* ================================================================== *)
(** * Properties *)
(* ================================================================== *)

(** ** String lemmas *)

Section StringFacts.

Lemma string_app_length (s t : string) :
  String.length (s +:+ t) = (String.length s + String.length t)%nat.
Proof. induction s; simpl; auto. Qed.

Lemma drop_app_length (s t : string) : Str.drop (String.length s) (s +:+ t) = t.
Proof. induction s; simpl; auto. Qed.

Lemma take_drop (n : nat) (s : string) : Str.take n s +:+ Str.drop n s = s.
Proof.
  revert s. induction n as [|n IH]; intros [|a s]; simpl; auto.
  now rewrite IH.
Qed.

(** [endswith] for a one-character suffix. *)
Lemma endswith_char (s : string) (c : ascii) :
  Str.endswith s (String c EmptyString) = true <->
  exists d, s = d +:+ String c EmptyString.
Proof.
  unfold Str.endswith. rewrite andb_true_iff, Nat.leb_le, String.eqb_eq.
  split.
  - intros [_ H]. exists (Str.take (String.length s - 1) s).
    simpl in H. rewrite <- H. symmetry. apply take_drop.
  - intros [d ->]. rewrite string_app_length. simpl. split; [lia|].
    replace (String.length d + 1 - 1)%nat with (String.length d) by lia.
    apply drop_app_length.
Qed.

Lemma startswith_char (s : string) (c : ascii) :
  Str.startswith s (String c EmptyString) = true <->
  exists b, s = String c b.
Proof.
  destruct s as [|a s]; simpl.
  - split; [discriminate | intros [b H]; discriminate].
  - destruct (Ascii.eqb c a) eqn:E.
    + apply Ascii.eqb_eq in E as ->. destruct s; split; eauto.
    + apply Ascii.eqb_neq in E. split; [discriminate|].
      intros [b H]. congruence.
Qed.

Lemma contains_char (s : string) (c : ascii) :
  Str.contains s (String c EmptyString) = true <->
  exists a b, s = a +:+ String c b.
Proof.
  induction s as [|x s IH].
  - simpl. split; [discriminate|]. intros ([|? ?] & b & H); discriminate.
  - cbn [Str.contains].
    destruct (Str.startswith (String x s) (String c EmptyString)) eqn:E.
    + apply startswith_char in E as [b E]. split; [|reflexivity].
      intros _. exists EmptyString, b. exact E.
    + rewrite IH. split.
      * intros (a & b & ->). exists (String x a), b. reflexivity.
      * intros ([|y a] & b & H); simpl in H.
        -- assert (Str.startswith (String x s) (String c EmptyString) = true)
             by (apply startswith_char; exists b; exact H).
           congruence.
        -- injection H as -> ->. eauto.
Qed.

Lemma split_not_nil (c : ascii) (s : string) : Str.split c s <> [].
Proof.
  induction s as [|a s IH]; simpl; [discriminate|].
  destruct (Ascii.eqb a c); [discriminate|].
  destruct (Str.split c s); discriminate.
Qed.

(** What [rfind] returns, against [split]: either the character does not
    occur and the split is trivial, or the part after the last
    occurrence is the last piece of the split. *)
Lemma rfind_from_split (c : ascii) (s : string) :
  forall i found : Z, (found < i)%Z ->
  let r := Str.rfind_from c s i found in
  (r = found /\ Str.split c s = [s]) \/
  ((i <= r)%Z /\ (2 <= length (Str.split c s))%nat /\
   List.last (Str.split c s) EmptyString = Str.drop (Z.to_nat (r - i + 1)) s).
Proof.
  induction s as [|a s IH]; intros i found Hlt; cbn [Str.rfind_from Str.split].
  - left. split; reflexivity.
  - destruct (Ascii.eqb a c) eqn:E.
    + right.
      destruct (IH (i + 1)%Z i ltac:(lia)) as [[Hr Hs] | (Hr & Hlen & Hlast)].
      * rewrite Hr, Hs. repeat split; try lia; try (simpl; lia).
        replace (i - i + 1)%Z with 1%Z by lia. reflexivity.
      * repeat split; try lia; try (simpl; lia).
        replace (Z.to_nat (Str.rfind_from c s (i + 1) i - i + 1))
          with (S (Z.to_nat (Str.rfind_from c s (i + 1) i - (i + 1) + 1)))
          by lia.
        cbn [Str.drop]. rewrite <- Hlast.
        destruct (Str.split c s) eqn:Hsp; [simpl in Hlen; lia|]. reflexivity.
    + destruct (IH (i + 1)%Z found ltac:(lia)) as [[Hr Hs] | (Hr & Hlen & Hlast)].
      * left. rewrite Hr, Hs. split; reflexivity.
      * right.
        destruct (Str.split c s) as [|w [|w' ws]] eqn:Hsp;
          [simpl in Hlen; lia | simpl in Hlen; lia |].
        repeat split; try lia; try (simpl; lia).
        replace (Z.to_nat (Str.rfind_from c s (i + 1) found - i + 1))
          with (S (Z.to_nat (Str.rfind_from c s (i + 1) found - (i + 1) + 1)))
          by lia.
        cbn [Str.drop]. rewrite <- Hlast. reflexivity.
Qed.

(** [os.path.basename] is the final segment. *)
Lemma basename_final_segment (n : string) :
  posixpath.basename n = HeuristicSpec.final_segment n.
Proof.
  unfold posixpath.basename, HeuristicSpec.final_segment, Str.rfind,
    Str.slice_from, posixpath.sep.
  destruct (rfind_from_split "/" n 0 (-1) ltac:(lia)) as [[Hr Hs] | (Hr & _ & Hlast)].
  - rewrite Hr, Hs. reflexivity.
  - rewrite Hlast. f_equal. lia.
Qed.

End StringFacts.

(** C2. [is_directory(n)] is true exactly when [n] ends with a path
    separator (["/"] or a backslash) or the final path segment of [n]
    contains no ["."]; so ["media/"], ["media"] and the extensionless
    ["README"] are classified as directories and ["main.db"] is not. *)
Theorem is_directory_heuristic :
  (forall n : string,
      unzip.is_directory n = true <->
      HeuristicSpec.ends_with_separator n \/
      ~ HeuristicSpec.has_dot (HeuristicSpec.final_segment n))
  /\ unzip.is_directory "media/" = true
  /\ unzip.is_directory "media" = true
  /\ unzip.is_directory "main.db" = false
  /\ unzip.is_directory "README" = true.
Proof.
  split; [|repeat split; reflexivity].
  intros n. unfold unzip.is_directory, HeuristicSpec.ends_with_separator,
    HeuristicSpec.has_dot.
  rewrite <- basename_final_segment.
  destruct (Str.endswith n "/") eqn:E1; simpl.
  { apply endswith_char in E1 as [d E1]. split; [|reflexivity]. eauto. }
  destruct (Str.endswith n Str.backslash) eqn:E2; simpl.
  { apply endswith_char in E2 as [d E2]. split; [|reflexivity]. eauto. }
  destruct (Str.contains (posixpath.basename n) ".") eqn:E3; simpl.
  - apply contains_char in E3. split; [discriminate|].
    intros [[d [H | H]] | H].
    + assert (Str.endswith n "/" = true) by (apply endswith_char; eauto).
      congruence.
    + assert (Str.endswith n Str.backslash = true) by (apply endswith_char; eauto).
      congruence.
    + contradiction.
  - split; [|reflexivity]. intros _. right. intros H.
    apply contains_char in H. congruence.
Qed.

(** ** The monad *)

Section MonadFacts.
Context {A B : Type}.

Lemma bind_returns (m : M A) (f : A -> M B) (w w' : World) (a : A) :
  m w = (w', Returns a) -> bind m f w = f a w'.
Proof. unfold bind. now intros ->. Qed.


End MonadFacts.

(** [print] writes its line or raises, and touches nothing else. *)
Lemma print_spec (o : output) (w w' : World) (r : outcome unit) :
  print o w = (w', r) ->
  (stdout_encodes w o = true /\ r = Returns tt /\ w' = set_stdout (stdout w ++ [o]) w) \/
  (stdout_encodes w o = false /\ r = Raises UnicodeEncodeError /\ w' = w).
Proof.
  unfold print. destruct (stdout_encodes w o); intros H; inversion H; subst; auto.
Qed.

Lemma print_disk (o : output) (w w' : World) (r : outcome unit) :
  print o w = (w', r) ->
  disk w' = disk w /\ platform_system w' = platform_system w /\
  temp_candidates w' = temp_candidates w.
Proof.
  intros H. apply print_spec in H as [(_ & _ & ->) | (_ & _ & ->)]; repeat split.
Qed.


(** ** The expander: failures of single entries *)

(** The run of the example as a whole: the two sound members are
    extracted, the failure is printed, and the call returns. *)
Example partial_extraction_run :
  let '(w, r) := unzip.ExpandEWSXFile "s.ewsx" "out" partial_world in
  r = Returns tt /\
  stdout w = [Error_extracting "b.txt" ZlibError] /\
  disk w !! ["out"; "a.txt"] = Some (File (Raw [x61])) /\
  disk w !! ["out"; "c.txt"] = Some (File (Raw [x63])).
Proof. vm_compute. repeat split. Qed.

(** ** Temporary directories *)

Lemma mkdir_returns (p : string) (w w' : World) :
  os.mkdir p w = (w', Returns tt) ->
  os.stat (disk w) (os.resolve p) = None /\
  w' = set_disk (<[os.resolve p := Dir]> (disk w)) w.
Proof.
  unfold os.mkdir. destruct (negb (Str.truthy p)); [discriminate|].
  destruct (os.parent_error (disk w) (os.resolve p)); [discriminate|].
  destruct (os.stat (disk w) (os.resolve p)); [discriminate|].
  intros H. now inversion H.
Qed.

Lemma mkdir_raises (p : string) (w w' : World) (e : exn) :
  os.mkdir p w = (w', Raises e) -> w' = w.
Proof.
  unfold os.mkdir. destruct (negb (Str.truthy p)); [now inversion 1|].
  destruct (os.parent_error (disk w) (os.resolve p)); [now inversion 1|].
  destruct (os.stat (disk w) (os.resolve p)); [now inversion 1|discriminate].
Qed.

Lemma stat_None_not_root (d : gmap (list string) node) (k : path) :
  os.stat d k = None -> k <> [] /\ d !! k = None.
Proof. destruct k; [discriminate|]. simpl. intros H. split; [discriminate|exact H]. Qed.

(** The name [mkdtemp] returns was free and is now a directory. *)
Lemma mkdtemp_from_returns (candidates : list string) (w w' : World) (name : string) :
  tempfile.mkdtemp_from candidates w = (w', Returns name) ->
  os.stat (disk w) (os.resolve name) = None /\
  disk w' = <[os.resolve name := Dir]> (disk w) /\
  name ∈ candidates.
Proof.
  revert w. induction candidates as [|c rest IH]; intros w; simpl; [discriminate|].
  destruct (os.mkdir c w) as [w1 [[]|e]] eqn:Hmk.
  - intros H. inversion H; subst. apply mkdir_returns in Hmk as [Hfree ->].
    repeat split; [exact Hfree | left].
  - apply mkdir_raises in Hmk as ->.
    destruct e; try discriminate.
    intros H. apply IH in H as (? & ? & ?). repeat split; try assumption. now right.
Qed.

Lemma rmtree_key_lookup_below (k q : path) (d : gmap (list string) node) :
  k `prefix_of` q -> shutil.rmtree_key k d !! q = None.
Proof.
  intros Hpre. unfold shutil.rmtree_key.
  apply map_lookup_filter_None. right. intros x _ Hnot. now apply Hnot.
Qed.

Lemma rmtree_key_lookup_other (k q : path) (d : gmap (list string) node) :
  ~ k `prefix_of` q -> shutil.rmtree_key k d !! q = d !! q.
Proof.
  intros Hpre. unfold shutil.rmtree_key.
  destruct (d !! q) as [x|] eqn:E.
  - apply map_lookup_filter_Some. split; [exact E | exact Hpre].
  - apply map_lookup_filter_None. now left.
Qed.



(** ** Runs that show the defects *)

(** C3 (defect). Loading an archive whose only member is
    ["media/images/a.png"] records the directories ["media"] and
    ["images"], the bare names that [os.walk] yields, not the relative
    path ["media/images"]: the parent directory of the file is not in
    [dirs_list]. *)
Theorem from_file_records_bare_directory_names :
  snd (ewsx.from_file ewsx.__init__ "n.ewsx" nested_world)
    = Returns (ewsx.mkEWSXFIle (Some "n.ewsx")
                 (Some [("media/images/a.png", Raw [x89])])
                 (Some ["media"; "images"])) /\
  posixpath.dirname "media/images/a.png" = "media/images" /\
  "media/images" ∉ ["media"; "images"].
Proof.
  split; [vm_compute; reflexivity|]. split; [vm_compute; reflexivity|].
  intros H. repeat (apply elem_of_cons in H as [H|H]; [discriminate|]).
  now apply elem_of_nil in H.
Qed.

(** Saving that object fails: the staging tree gets [media] and [images]
    side by side, and the file has no directory to go to. *)
Example save_of_nested_archive_fails :
  snd ((a <- ewsx.from_file ewsx.__init__ "n.ewsx" ;; ewsx.save a "m.ewsx") nested_world)
    = Raises FileNotFoundError.
Proof. vm_compute. reflexivity. Qed.

(** C4 (defect). An archive is loaded that has the directory [media/]
    and the file [main.db]; [dirs_list] records ["media"]. The archive
    that [save] writes has the single member ["main.db"], deflated: the
    recorded directory, which has no files, is not in it. *)
Theorem save_drops_empty_directories :
  let '(w, r) := load_save_load "a.ewsx" "b.ewsx" usual_world in
  (exists second,
      r = Returns (ewsx.mkEWSXFIle (Some "a.ewsx")
                     (Some [("main.db", Raw [x53; x51; x4c])]) (Some ["media"]),
                   second)) /\
  disk w !! ["b.ewsx"]
    = Some (File (ZipImage [Member "main.db" ZIP_DEFLATED (Intact (Raw [x53; x51; x4c]))])).
Proof. vm_compute. split; [eexists|]; reflexivity. Qed.

(** C1 (defect). For the same archive, the listing of the loaded object
    has the directory [media/] and the file [main.db]; after [save] and a
    second load the listing has [main.db] alone. *)
Theorem load_save_load_loses_directory :
  let '(w, r) := load_save_load "a.ewsx" "b.ewsx" usual_world in
  exists first second,
    r = Returns (first, second) /\
    ewsx.structure_text first = Returns ("media/" +:+ Str.newline +:+ "main.db") /\
    ewsx.structure_text second = Returns "main.db" /\
    ewsx.dirs_list first = Some ["media"] /\
    ewsx.dirs_list second = Some [].
Proof. vm_compute. do 2 eexists. repeat split; reflexivity. Qed.

(** C9 (defect). For an archive with the picture ["media/image.png"],
    [structure()] lists under [media/] the name ["ge.png"]:
    [x.strip("/" + f)] removes from both ends every character that
    occurs in ["/media"], not the prefix ["media/"]. *)
Theorem structure_mangles_contained_names :
  let '(w, r) := ewsx.from_file ewsx.__init__ "p.ewsx" picture_world in
  exists loaded,
    r = Returns loaded /\
    ewsx.files_list loaded = Some [("media/image.png", Raw [x89])] /\
    ewsx.dirs_list loaded = Some ["media"] /\
    ewsx.structure_text loaded
      = Returns ("media/" +:+ Str.newline +:+ "    ge.png" +:+ Str.newline).
Proof. vm_compute. eexists. repeat split; reflexivity. Qed.

(** ** What the primitives do to the store *)

Lemma bind_inv {A B} (m : M A) (f : A -> M B) (w w' : World) (r : outcome B) :
  bind m f w = (w', r) ->
  (exists w1 a, m w = (w1, Returns a) /\ f a w1 = (w', r)) \/
  (exists e, m w = (w', Raises e) /\ r = Raises e).
Proof.
  unfold bind. destruct (m w) as [w1 [a|e]]; intros H.
  - left. eauto.
  - right. inversion H; subst. eauto.
Qed.

Lemma makedirs_from_spec (rest done : path) (d d' : gmap (list string) node)
    (r : outcome unit) :
  os.makedirs_from done rest d = (d', r) ->
  forall k : path,
    d' !! k = d !! k \/
    (d !! k = None /\ d' !! k = Some Dir /\ k `prefix_of` (done ++ rest) /\ k <> []).
Proof.
  revert done d. induction rest as [|c rest IH]; intros done d H k; simpl in H.
  - inversion H; subst. now left.
  - assert (Hne : done ++ [c] <> []) by (destruct done; discriminate).
    assert (Hstat : os.stat d (done ++ [c]) = d !! (done ++ [c]))
      by (destruct (done ++ [c]); [congruence | reflexivity]).
    rewrite Hstat in H.
    destruct (d !! (done ++ [c])) as [[data|]|] eqn:E.
    + inversion H; subst. now left.
    + specialize (IH _ _ H k). rewrite <- app_assoc in IH. exact IH.
    + specialize (IH _ _ H k). rewrite <- app_assoc in IH. simpl in IH.
      destruct (decide (k = done ++ [c])) as [->|Hk].
      * right. destruct IH as [IH | (IH & _)].
        -- rewrite lookup_insert_eq in IH. repeat split; try assumption.
           exists rest. now rewrite <- app_assoc.
        -- rewrite lookup_insert_eq in IH. discriminate.
      * rewrite lookup_insert_ne in IH by congruence. exact IH.
Qed.

Lemma makedirs_spec (p : string) (w w' : World) (r : outcome unit) :
  os.makedirs p w = (w', r) ->
  stdout w' = stdout w /\ platform_system w' = platform_system w /\
  temp_candidates w' = temp_candidates w /\
  forall k : path,
    disk w' !! k = disk w !! k \/
    (disk w !! k = None /\ disk w' !! k = Some Dir /\
     k `prefix_of` os.resolve p /\ k <> []).
Proof.
  unfold os.makedirs. destruct (negb (Str.truthy p)).
  - intros H. inversion H; subst. repeat split. now left.
  - destruct (os.makedirs_from [] (os.resolve p) (disk w)) as [d r'] eqn:E.
    intros H. inversion H; subst. repeat split.
    intros k. exact (makedirs_from_spec _ _ _ _ _ E k).
Qed.

Lemma open_wb_spec (p : string) (w w' : World) (r : outcome path) :
  os.open_wb p w = (w', r) ->
  (w' = w /\ exists e, r = Raises e) \/
  (w' = set_disk (<[os.resolve p := File (Raw [])]> (disk w)) w /\
   r = Returns (os.resolve p) /\ os.stat (disk w) (os.resolve p) <> Some Dir).
Proof.
  unfold os.open_wb. destruct (negb (Str.truthy p)); [intros H; inversion H; eauto|].
  destruct (os.parent_error (disk w) (os.resolve p)); [intros H; inversion H; eauto|].
  destruct (os.stat (disk w) (os.resolve p)) as [[data|]|];
    destruct (Str.endswith p "/"); intros H; inversion H; subst; eauto;
    right; repeat split; congruence.
Qed.

Lemma write_spec (h : path) (data : bytes) (w w' : World) (r : outcome unit) :
  os.write h data w = (w', r) ->
  r = Returns tt /\
  (w' = w \/
   (w' = set_disk (<[h := File data]> (disk w)) w /\ exists x, disk w !! h = Some (File x))).
Proof.
  unfold os.write. destruct (disk w !! h) as [[x|]|] eqn:E; intros H; inversion H; subst;
    split; auto. right. eauto.
Qed.

Lemma read_spec (p : string) (w w' : World) (r : outcome bytes) :
  os.read p w = (w', r) -> w' = w.
Proof.
  unfold os.read. destruct (negb (Str.truthy p)); [now inversion 1|].
  destruct (os.parent_error (disk w) (os.resolve p)); [now inversion 1|].
  destruct (os.stat (disk w) (os.resolve p)) as [[data|]|];
    try destruct (Str.endswith p "/"); now inversion 1.
Qed.

Lemma zipfile_open_spec (z : zipfile.ZipFile) (name : string) (w w' : World)
    (r : outcome member) :
  zipfile.open z name w = (w', r) -> w' = w.
Proof.
  unfold zipfile.open. destruct (zipfile.readable z w); [|now inversion 1].
  destruct (zipfile.getinfo z name) as [m|]; [|now inversion 1].
  destruct (stored m); now inversion 1.
Qed.

Lemma zipfile_read_spec (z : zipfile.ZipFile) (m : member) (w w' : World)
    (r : outcome bytes) :
  zipfile.read z m w = (w', r) -> w' = w.
Proof.
  unfold zipfile.read.
  destruct (zipfile.readable z w || zipfile.empty_stored m); [|now inversion 1].
  destruct (stored m); now inversion 1.
Qed.

Lemma zipfile_open_r_spec (filepath : string) (w w' : World) (r : outcome zipfile.ZipFile) :
  zipfile.open_r filepath w = (w', r) ->
  w' = w /\
  forall z, r = Returns z ->
    disk w !! zipfile.fp z = os.stat (disk w) (os.resolve filepath) /\
    zipfile.fp z = os.resolve filepath /\
    os.stat (disk w) (os.resolve filepath) = Some (File (ZipImage (zipfile.infolist z))).
Proof.
  unfold zipfile.open_r. intros H.
  apply bind_inv in H as [(w1 & data & Hread & H) | (e & Hread & ->)].
  - pose proof (read_spec _ _ _ _ Hread) as ->.
    assert (Hstat : os.stat (disk w) (os.resolve filepath) = Some (File data)).
    { unfold os.read in Hread. destruct (negb (Str.truthy filepath)); [discriminate|].
      destruct (os.parent_error (disk w) (os.resolve filepath)); [discriminate|].
      destruct (os.stat (disk w) (os.resolve filepath)) as [[x|]|]; try discriminate.
      destruct (Str.endswith filepath "/"); [discriminate|]. now inversion Hread. }
    destruct data as [raw|members]; inversion H; subst; split; auto; try discriminate.
    intros z Hz. inversion Hz; subst. simpl. repeat split; try assumption.
    destruct (os.resolve filepath); [discriminate | now symmetry].
  - apply read_spec in Hread as ->. split; [reflexivity | discriminate].
Qed.

(** ** The expander and its source *)

Section KeepsSource.
Variable src : path.
Variable data : bytes.
Variable platform : string.





End KeepsSource.




(** ** Paths *)

Section PathFacts.

Lemma string_app_assoc (a b c : string) : (a +:+ b) +:+ c = a +:+ b +:+ c.
Proof. induction a; simpl; congruence. Qed.

Lemma split_app (c : ascii) (a b : string) :
  Str.split c (a +:+ String c b) = Str.split c a ++ Str.split c b.
Proof.
  induction a as [|x a IH]; simpl.
  - now rewrite Ascii.eqb_refl.
  - destruct (Ascii.eqb x c); rewrite IH; [reflexivity|].
    destruct (Str.split c a) eqn:E; [now apply split_not_nil in E | reflexivity].
Qed.

Lemma split_pieces (c : ascii) (s x : string) :
  x ∈ Str.split c s -> Str.split c x = [x].
Proof.
  revert x. induction s as [|a s IH]; intros x; simpl.
  - intros H. apply list_elem_of_singleton in H as ->. reflexivity.
  - destruct (Ascii.eqb a c) eqn:E.
    + intros H. apply elem_of_cons in H as [-> | H]; [reflexivity | now apply IH].
    + destruct (Str.split c s) as [|w ws] eqn:Es; [now apply split_not_nil in Es|].
      intros H. apply elem_of_cons in H as [-> | H].
      * simpl. rewrite E, (IH w) by left. reflexivity.
      * apply IH. now right.
Qed.

Lemma split_single_startswith (s : string) :
  Str.split "/" s = [s] -> Str.startswith s "/" = false.
Proof.
  destruct s as [|a s]; [reflexivity|]. cbn [Str.split Str.startswith].
  rewrite (Ascii.eqb_sym "/" a).
  destruct (Ascii.eqb a "/"); [discriminate | reflexivity].
Qed.

Lemma Forall_removelast {A} (P : A -> Prop) (l : list A) :
  Forall P l -> Forall P (removelast l).
Proof.
  induction 1 as [|x l Hx Hl IH]; simpl; [constructor|].
  destruct l; [constructor | now constructor].
Qed.

Lemma resolve_step_cases (acc : path) (c : string) :
  (os.resolve_step acc c = acc /\ (c = "" \/ c = ".")) \/
  (os.resolve_step acc c = removelast acc /\ c = "..") \/
  (os.resolve_step acc c = acc ++ [c] /\ c <> "" /\ c <> "." /\ c <> "..").
Proof.
  unfold os.resolve_step.
  destruct (bool_decide (c = "" \/ c = ".")) eqn:E1.
  - apply bool_decide_eq_true in E1. left. now split.
  - apply bool_decide_eq_false in E1.
    destruct (bool_decide (c = "..")) eqn:E2.
    + apply bool_decide_eq_true in E2. right. left. now split.
    + apply bool_decide_eq_false in E2. right. right. repeat split; auto.
Qed.

Lemma fold_resolve_proper (comps : list string) (base : path) :
  (forall x, x ∈ comps -> Str.split "/" x = [x]) ->
  Forall proper_name base ->
  Forall proper_name (fold_left os.resolve_step comps base).
Proof.
  revert base. induction comps as [|c comps IH]; intros base Hc Hb; simpl; [exact Hb|].
  apply IH; [intros x Hx; apply Hc; now right|].
  destruct (resolve_step_cases base c) as [[-> _] | [[-> _] | (-> & H1 & H2 & H3)]].
  - exact Hb.
  - now apply Forall_removelast.
  - apply Forall_app. split; [exact Hb|]. constructor; [|constructor].
    repeat split; auto. apply Hc. left.
Qed.

Lemma resolve_from_proper (base : path) (p : string) :
  Forall proper_name base -> Forall proper_name (os.resolve_from base p).
Proof. apply fold_resolve_proper. intros x. apply split_pieces. Qed.

Lemma resolve_proper (p : string) : Forall proper_name (os.resolve p).
Proof. apply resolve_from_proper. constructor. Qed.

(** Joining resolves the second path from where the first leads. *)
Lemma resolve_join (a b : string) :
  Str.startswith b "/" = false ->
  os.resolve (posixpath.join a b) = os.resolve_from (os.resolve a) b.
Proof.
  intros Hb. unfold posixpath.join. rewrite Hb.
  unfold os.resolve, os.resolve_from.
  destruct a as [|x a]; [reflexivity|]. cbn [Str.truthy negb orb].
  destruct (Str.endswith (String x a) "/") eqn:E.
  - apply endswith_char in E as [d E]. rewrite E.
    rewrite string_app_assoc. simpl (String "/" EmptyString +:+ b).
    rewrite split_app, fold_left_app.
    replace (d +:+ "/") with (d +:+ String "/" EmptyString) by reflexivity.
    rewrite split_app, fold_left_app. reflexivity.
  - simpl ("/" +:+ b). now rewrite split_app, fold_left_app.
Qed.

Lemma resolve_from_proper_name (base : path) (c : string) :
  proper_name c -> os.resolve_from base c = base ++ [c].
Proof.
  intros (H1 & H2 & H3 & H4). unfold os.resolve_from. rewrite H4. simpl.
  destruct (resolve_step_cases base c) as [[_ [?|?]] | [[_ ?] | (-> & _)]];
    congruence.
Qed.

Lemma resolve_join_proper (a c : string) :
  proper_name c -> os.resolve (posixpath.join a c) = os.resolve a ++ [c].
Proof.
  intros Hc. rewrite resolve_join.
  - now apply resolve_from_proper_name.
  - apply split_single_startswith. apply Hc.
Qed.

Lemma fold_resolve_safe (comps : list string) (base : path) :
  ".." ∉ comps -> base `prefix_of` fold_left os.resolve_step comps base.
Proof.
  revert base. induction comps as [|c comps IH]; intros base Hc; simpl; [reflexivity|].
  assert (Hc' : ".." ∉ comps) by (intros H; apply Hc; now right).
  destruct (resolve_step_cases base c) as [[-> _] | [[_ ->] | (-> & _)]].
  - now apply IH.
  - exfalso. apply Hc. left.
  - etrans; [|apply IH; exact Hc']. now apply prefix_app_r.
Qed.

Lemma resolve_join_safe (a b : string) :
  safe_name b -> os.resolve a `prefix_of` os.resolve (posixpath.join a b).
Proof.
  intros [Hb Hdots]. rewrite resolve_join by exact Hb. now apply fold_resolve_safe.
Qed.

Lemma proper_name_safe (c : string) : proper_name c -> safe_name c.
Proof.
  intros (H1 & H2 & H3 & H4). split; [now apply split_single_startswith|].
  rewrite H4. intros H. apply list_elem_of_singleton in H. congruence.
Qed.

(** The last segment of a path joined with a proper name is that name. *)
Lemma basename_join_proper (a c : string) :
  proper_name c -> posixpath.basename (posixpath.join a c) = c.
Proof.
  intros Hc. pose proof Hc as (_ & _ & _ & Hs).
  rewrite basename_final_segment. unfold HeuristicSpec.final_segment, posixpath.join.
  rewrite (split_single_startswith _ Hs).
  destruct a as [|x a]; [simpl; now rewrite Hs|]. cbn [Str.truthy negb orb].
  destruct (Str.endswith (String x a) "/") eqn:E.
  - apply endswith_char in E as [d E]. rewrite E.
    rewrite string_app_assoc. simpl (String "/" EmptyString +:+ c).
    rewrite split_app, Hs. now rewrite last_last.
  - simpl ("/" +:+ c). rewrite split_app, Hs. now rewrite last_last.
Qed.

Lemma split_cons_single (a : ascii) (s : string) :
  a <> "/"%char -> Str.split "/" s = [s] -> Str.split "/" (String a s) = [String a s].
Proof.
  intros Ha Hs. simpl. apply Ascii.eqb_neq in Ha. now rewrite Ha, Hs.
Qed.

Lemma string_of_uint_single (u : Decimal.uint) :
  Str.split "/" (NilEmpty.string_of_uint u) = [NilEmpty.string_of_uint u].
Proof. induction u; simpl; try reflexivity; now rewrite IHu. Qed.

Lemma schedule_name_proper (n : nat) : proper_name ("schedule" +:+ ewsx.str n).
Proof.
  repeat split; try discriminate.
  unfold ewsx.str. cbn [String.append Str.split Ascii.eqb Bool.eqb].
  now rewrite string_of_uint_single.
Qed.

Lemma below_spec (k q r : path) : os.below k q = Some r <-> q = k ++ r.
Proof.
  revert q. induction k as [|a k IH]; intros q; simpl.
  - split; congruence.
  - destruct q as [|b q]; [split; discriminate|].
    destruct (bool_decide (a = b)) eqn:E.
    + apply bool_decide_eq_true in E as ->. rewrite IH. split; congruence.
    + apply bool_decide_eq_false in E. split; [discriminate | congruence].
Qed.

Lemma child_name_spec (k q : path) (c : string) :
  os.child_name k q = Some c <-> q = k ++ [c].
Proof.
  unfold os.child_name. destruct (os.below k q) as [r|] eqn:E.
  - apply below_spec in E as ->. destruct r as [|x [|y r]].
    + split; [discriminate|]. rewrite app_nil_r. intros H.
      apply (f_equal length) in H. rewrite length_app in H. simpl in H. lia.
    + split; [congruence|]. intros H. apply app_inv_head in H. congruence.
    + split; [discriminate|]. intros H. apply app_inv_head in H. discriminate.
  - split; [discriminate|]. intros H.
    assert (os.below k q = Some [c]) by now apply below_spec. congruence.
Qed.

(** The names listed in a directory are the entries right below it. *)
Lemma elem_of_children (d : gmap (list string) node) (k : path) (c : string) :
  c ∈ os.children d k <-> is_Some (d !! (k ++ [c])).
Proof.
  unfold os.children. rewrite elem_of_set_omap. split.
  - intros (q & Hq & Hc). apply child_name_spec in Hc as ->. now apply elem_of_dom.
  - intros H. exists (k ++ [c]). split; [now apply elem_of_dom | now apply child_name_spec].
Qed.

Lemma children_proper (d : gmap (list string) node) (k : path) (c : string) :
  proper_disk d -> c ∈ os.children d k -> proper_name c.
Proof.
  intros Hd Hc. apply elem_of_children in Hc. apply Hd in Hc.
  apply Forall_app in Hc as [_ Hc]. now inversion Hc.
Qed.

Lemma comparable_refl (k : path) : comparable k k.
Proof. now left. Qed.

Lemma comparable_prefix (k q x : path) : k `prefix_of` q -> x `prefix_of` q -> comparable k x.
Proof. intros H1 H2. destruct (prefix_weak_total _ _ _ H1 H2); [now left | now right]. Qed.

End PathFacts.

(** ** Where a computation writes *)

Section Confined.
Variable S : path -> Prop.
Hypothesis S_proper : forall k : path, S k -> Forall proper_name k.

Lemma writes_in_refl (d : gmap (list string) node) : writes_in S d d.
Proof. intros k. now left. Qed.

Lemma writes_in_trans (d1 d2 d3 : gmap (list string) node) :
  writes_in S d1 d2 -> writes_in S d2 d3 -> writes_in S d1 d3.
Proof.
  intros H12 H23 k. destruct (H23 k) as [E23 | (Hs & Hnd & Hsome)].
  - rewrite E23. apply H12.
  - destruct (H12 k) as [E12 | (Hs' & Hnd' & _)].
    + right. rewrite <- E12. auto.
    + right. auto.
Qed.

Lemma writes_in_insert (d : gmap (list string) node) (k : path) (v : node) :
  S k -> d !! k <> Some Dir -> writes_in S d (<[k := v]> d).
Proof.
  intros Hs Hnd q. destruct (decide (k = q)) as [<-|Hne].
  - right. rewrite lookup_insert_eq. eauto.
  - left. now apply lookup_insert_ne.
Qed.

Lemma writes_in_proper (d d' : gmap (list string) node) :
  proper_disk d -> writes_in S d d' -> proper_disk d'.
Proof.
  intros Hd Hw k Hk. destruct (Hw k) as [E | (Hs & _)].
  - apply Hd. now rewrite <- E.
  - now apply S_proper.
Qed.

Lemma writes_in_keeps_dir (d d' : gmap (list string) node) (k : path) :
  writes_in S d d' -> d !! k = Some Dir -> d' !! k = Some Dir.
Proof. intros Hw Hk. destruct (Hw k) as [E | (_ & Hnd & _)]; congruence. Qed.

Lemma confined_ret {A} (a : A) : confined S (ret a).
Proof. intros w w' r _ H. inversion H; subst. apply writes_in_refl. Qed.

Lemma confined_raise {A} (e : exn) : confined S (@raise A e).
Proof. intros w w' r _ H. inversion H; subst. apply writes_in_refl. Qed.

Lemma confined_pure {A} (m : M A) :
  (forall w w' r, m w = (w', r) -> disk w' = disk w) -> confined S m.
Proof. intros Hm w w' r _ H. rewrite (Hm _ _ _ H). apply writes_in_refl. Qed.

(** Sequencing, where the continuation may use what the first part
    returned from a well-formed store. *)
Lemma confined_bind {A B} (Q : A -> Prop) (m : M A) (f : A -> M B) :
  confined S m ->
  (forall w w' a, proper_disk (disk w) -> m w = (w', Returns a) -> Q a) ->
  (forall a, Q a -> confined S (f a)) ->
  confined S (bind m f).
Proof.
  intros Hm HQ Hf w w' r Hd H.
  apply bind_inv in H as [(w1 & a & Hrun & H) | (e & Hrun & ->)].
  - pose proof (Hm _ _ _ Hd Hrun) as H1.
    eapply writes_in_trans; [exact H1|].
    eapply (Hf a); [eapply HQ; eauto | eapply writes_in_proper; eauto | exact H].
  - eapply Hm; eauto.
Qed.

Lemma confined_seq {A B} (m : M A) (f : A -> M B) :
  confined S m -> (forall a, confined S (f a)) -> confined S (bind m f).
Proof. intros Hm Hf. apply (confined_bind (fun _ => True)); auto. Qed.

Lemma confined_try_except {A} (body : M A) (handler : exn -> M A) :
  confined S body -> (forall e, confined S (handler e)) ->
  confined S (try_except body handler).
Proof.
  intros Hb Hh w w' r Hd H. unfold try_except in H.
  destruct (body w) as [w1 [a|e]] eqn:E.
  - inversion H; subst. eapply Hb; eauto.
  - eapply writes_in_trans; [eapply Hb; eauto|].
    eapply Hh; [|exact H]. eapply writes_in_proper; [exact Hd|]. eapply Hb; eauto.
Qed.

Lemma confined_for_each {A} (l : list A) (body : A -> M unit) :
  (forall x, x ∈ l -> confined S (body x)) -> confined S (for_each l body).
Proof.
  induction l as [|x l IH]; intros Hb; simpl.
  - apply confined_ret.
  - apply confined_seq; [apply Hb; left|]. intros _. apply IH.
    intros y Hy. apply Hb. now right.
Qed.

Lemma confined_for_fold {A T} (l : list A) (s : T) (body : T -> A -> M T) :
  (forall s x, x ∈ l -> confined S (body s x)) -> confined S (for_fold l s body).
Proof.
  revert s. induction l as [|x l IH]; intros s Hb; simpl.
  - apply confined_ret.
  - apply confined_seq; [apply Hb; left|]. intros s'. apply IH.
    intros s'' y Hy. apply Hb. now right.
Qed.

(** The primitives. *)

Lemma confined_makedirs (p : string) :
  (forall q : path, q `prefix_of` os.resolve p -> q <> [] -> S q) ->
  confined S (os.makedirs p).
Proof.
  intros Hq w w' r _ H. apply makedirs_spec in H as (_ & _ & _ & Hk).
  intros k. destruct (Hk k) as [E | (Hnone & Hdir & Hpre & Hne)]; [now left|].
  right. repeat split; [now apply Hq | congruence | rewrite Hdir; eauto].
Qed.

Lemma confined_mkdir (p : string) : S (os.resolve p) -> confined S (os.mkdir p).
Proof.
  intros Hs w w' [[]|e] _ H.
  - apply mkdir_returns in H as [Hfree ->]. simpl.
    apply stat_None_not_root in Hfree as [_ Hfree].
    apply writes_in_insert; [exact Hs | congruence].
  - apply mkdir_raises in H as ->. apply writes_in_refl.
Qed.

Lemma stat_not_dir (d : gmap (list string) node) (k : path) :
  os.stat d k <> Some Dir -> d !! k <> Some Dir.
Proof. destruct k; simpl; [intros H; now destruct H | exact id]. Qed.

Lemma confined_open_wb (p : string) : S (os.resolve p) -> confined S (os.open_wb p).
Proof.
  intros Hs w w' r _ H.
  apply open_wb_spec in H as [[-> _] | (-> & _ & Hnd)]; [apply writes_in_refl|].
  simpl. apply writes_in_insert; [exact Hs | now apply stat_not_dir].
Qed.

Lemma open_wb_handle (p : string) (w w' : World) (h : path) :
  os.open_wb p w = (w', Returns h) -> h = os.resolve p.
Proof.
  intros H. apply open_wb_spec in H as [[_ [e He]] | (_ & Hr & _)]; congruence.
Qed.

Lemma confined_write (h : path) (data : bytes) : S h -> confined S (os.write h data).
Proof.
  intros Hs w w' r _ H. apply write_spec in H as [_ [-> | [-> [x Hx]]]].
  - apply writes_in_refl.
  - simpl. apply writes_in_insert; [exact Hs | congruence].
Qed.

Lemma confined_read (p : string) : confined S (os.read p).
Proof. apply confined_pure. intros w w' r H. now rewrite (read_spec _ _ _ _ H). Qed.

Lemma confined_isdir (p : string) : confined S (os.isdir p).
Proof. apply confined_pure. intros w w' r H. now inversion H. Qed.

Lemma listdir_spec (p : string) (w w' : World) (r : outcome (list string)) :
  os.listdir p w = (w', r) ->
  w' = w /\ forall l, r = Returns l -> l = elements (os.children (disk w) (os.resolve p)).
Proof.
  unfold os.listdir. destruct (negb (Str.truthy p)); [inversion 1; split; [auto|discriminate]|].
  destruct (os.parent_error (disk w) (os.resolve p));
    [inversion 1; split; [auto|discriminate]|].
  destruct (os.stat (disk w) (os.resolve p)) as [[data|]|]; inversion 1; subst;
    split; auto; try discriminate.
  intros l Hl. now inversion Hl.
Qed.

Lemma confined_listdir (p : string) : confined S (os.listdir p).
Proof. apply confined_pure. intros w w' r H. now apply listdir_spec in H as [-> _]. Qed.

Lemma listdir_proper (p : string) (w w' : World) (l : list string) :
  proper_disk (disk w) -> os.listdir p w = (w', Returns l) -> Forall proper_name l.
Proof.
  intros Hd H. apply listdir_spec in H as [_ Hl]. rewrite (Hl l eq_refl).
  apply Forall_forall. intros c Hc. apply elem_of_elements in Hc.
  eapply children_proper; eauto.
Qed.

Lemma confined_copyfile (src dst : string) :
  S (os.resolve dst) -> confined S (shutil.copyfile src dst).
Proof.
  intros Hs. unfold shutil.copyfile.
  destruct (bool_decide (os.resolve src = os.resolve dst)); [apply confined_raise|].
  apply confined_seq; [apply confined_read|]. intros data.
  apply (confined_bind (fun h => h = os.resolve dst)).
  - now apply confined_open_wb.
  - intros w w' h _ H. now apply open_wb_handle in H.
  - intros h ->. now apply confined_write.
Qed.

Lemma zone_below (Z k : path) : zone S Z -> Z `prefix_of` k -> zone S k.
Proof.
  intros Hz Hk q Hq [Hc | Hc]; apply Hz; try assumption.
  - eapply comparable_prefix; eauto.
  - right. etrans; [exact Hk | exact Hc].
Qed.

Lemma zone_prefixes (Z k : path) :
  zone S Z -> Forall proper_name k -> comparable k Z ->
  forall q : path, q `prefix_of` k -> S q.
Proof.
  intros Hz Hk Hc q Hq. apply Hz.
  - destruct Hq as [s ->]. now apply Forall_app in Hk as [Hk _].
  - destruct Hc as [Hc | Hc].
    + left. etrans; [exact Hq | exact Hc].
    + eapply comparable_prefix; eauto.
Qed.

Lemma confined_makedirs_zone (Z : path) (p : string) :
  zone S Z -> comparable (os.resolve p) Z -> confined S (os.makedirs p).
Proof.
  intros Hz Hc. apply confined_makedirs. intros q Hq _.
  apply (zone_prefixes Z (os.resolve p)); auto using resolve_proper.
Qed.


(** [copytree] writes at its destination and below. *)
Lemma confined_copytree_from (fuel : nat) (src dst : string) :
  zone S (os.resolve dst) -> confined S (shutil.copytree_from fuel src dst).
Proof.
  revert src dst. induction fuel as [|fuel IH]; intros src dst Hz; simpl.
  - apply confined_raise.
  - apply (confined_bind (Forall proper_name)).
    + apply confined_listdir.
    + intros w w' l Hd H. eapply listdir_proper; eauto.
    + intros names Hnames. apply confined_seq.
      * eapply confined_makedirs_zone; [exact Hz | apply comparable_refl].
      * intros _. apply confined_seq.
        -- apply confined_for_fold. intros failed name Hin.
           assert (Hname : proper_name name).
           { rewrite Forall_forall in Hnames. now apply Hnames. }
           assert (Hdst : os.resolve (posixpath.join dst name) = os.resolve dst ++ [name])
             by now apply resolve_join_proper.
           assert (Hz' : zone S (os.resolve (posixpath.join dst name))).
           { eapply zone_below; [exact Hz|]. rewrite Hdst. now apply prefix_app_r. }
           apply confined_seq; [apply confined_isdir|]. intros is_dir.
           apply confined_try_except.
           ++ apply confined_seq; [|intros _; apply confined_ret].
              destruct is_dir; [now apply IH|].
              apply confined_copyfile. apply Hz'; [apply resolve_proper | apply comparable_refl].
           ++ intros e. destruct (is_IOError e); [apply confined_ret | apply confined_raise].
        -- intros failed. destruct failed; [apply confined_raise | apply confined_ret].
Qed.



(** The staging tree is written below the temporary directory. *)
Lemma confined_stage (self : ewsx.EWSXFIle) (temp_dir : string) :
  zone S (os.resolve temp_dir) -> staging_safe self ->
  confined S (ewsx.stage self temp_dir).
Proof.
  intros Hz [Hdirs Hfiles]. unfold ewsx.stage.
  assert (Hbelow : forall name, safe_name name ->
            S (os.resolve (posixpath.join temp_dir name))).
  { intros name Hn. apply Hz; [apply resolve_proper|]. right.
    now apply resolve_join_safe. }
  assert (Hmedia : proper_name "media") by (repeat split; discriminate).
  assert (Hmain : proper_name "main.db") by (repeat split; discriminate).
  destruct (negb (ewsx.has_existing_file self)).
  - apply confined_seq; [apply confined_mkdir, Hbelow; now apply proper_name_safe|].
    intros _. apply (confined_bind (fun h => h = os.resolve (posixpath.join temp_dir "main.db"))).
    + apply confined_open_wb, Hbelow. now apply proper_name_safe.
    + intros w w' h _ H. now apply open_wb_handle in H.
    + intros h ->. apply confined_seq; [apply confined_read|].
      intros data. apply confined_write, Hbelow. now apply proper_name_safe.
  - apply (confined_bind (fun dirs => ewsx.dirs_list self = Some dirs)).
    + apply confined_pure. intros w w' r H. now inversion H.
    + intros w w' dirs _ H. unfold ewsx.getattr, ewsx.attr in H.
      destruct (ewsx.dirs_list self); now inversion H.
    + intros dirs Hd. rewrite Hd in Hdirs. simpl in Hdirs.
      apply confined_seq.
      * apply confined_for_each. intros dir Hin.
        rewrite Forall_forall in Hdirs.
        eapply confined_makedirs_zone; [exact Hz|]. right.
        apply resolve_join_safe. now apply Hdirs.
      * intros _. apply (confined_bind (fun files => ewsx.files_list self = Some files)).
        -- apply confined_pure. intros w w' r H. now inversion H.
        -- intros w w' files _ H. unfold ewsx.getattr, ewsx.attr in H.
           destruct (ewsx.files_list self); now inversion H.
        -- intros files Hf. rewrite Hf in Hfiles. simpl in Hfiles.
           apply confined_for_each. intros file Hin.
           rewrite Forall_forall in Hfiles.
           apply (confined_bind (fun h => h = os.resolve (posixpath.join temp_dir (fst file)))).
           ++ apply confined_open_wb, Hbelow. now apply Hfiles.
           ++ intros w w' h _ H. now apply open_wb_handle in H.
           ++ intros h ->. apply confined_write, Hbelow. now apply Hfiles.
Qed.

End Confined.

(** ** [expand_to_dir] *)


Lemma makedirs_from_returns (rest done : path) (d d' : gmap (list string) node) :
  os.makedirs_from done rest d = (d', Returns tt) ->
  os.stat d done = Some Dir -> os.stat d' (done ++ rest) = Some Dir.
Proof.
  revert done d. induction rest as [|c rest IH]; intros done d H Hdone; simpl in H.
  - inversion H; subst. now rewrite app_nil_r.
  - replace (done ++ c :: rest) with ((done ++ [c]) ++ rest) by now rewrite <- app_assoc.
    destruct (os.stat d (done ++ [c])) as [[data|]|] eqn:E; [discriminate| |].
    + now apply (IH _ _ H).
    + apply (IH _ _ H). destruct (done ++ [c]) eqn:Ek; [reflexivity|].
      simpl. apply lookup_insert_eq.
Qed.

Lemma makedirs_returns_dir (p : string) (w w' : World) :
  os.makedirs p w = (w', Returns tt) -> os.stat (disk w') (os.resolve p) = Some Dir.
Proof.
  unfold os.makedirs. destruct (negb (Str.truthy p)); [discriminate|].
  destruct (os.makedirs_from [] (os.resolve p) (disk w)) as [d r] eqn:E.
  intros H. inversion H; subst. simpl.
  now apply (makedirs_from_returns _ [] _ _ E).
Qed.

Lemma makedirs_outside (p : string) (w w' : World) (r : outcome unit) (k : path) :
  os.makedirs p w = (w', r) -> ~ k `prefix_of` os.resolve p -> disk w' !! k = disk w !! k.
Proof.
  intros H Hk. apply makedirs_spec in H as (_ & _ & _ & H).
  destruct (H k) as [E | (_ & _ & Hpre & _)]; [exact E | contradiction].
Qed.


Lemma prefix_snoc_inv {A} (l k : list A) (c : A) :
  l `prefix_of` k ++ [c] -> l `prefix_of` k \/ l = k ++ [c].
Proof.
  intros [s Hs]. destruct s as [|x s _] using rev_ind.
  - right. now rewrite app_nil_r in Hs.
  - left. rewrite app_assoc in Hs. apply app_inj_tail in Hs as [-> _].
    now apply prefix_app_r.
Qed.


Lemma comparable_snoc (out tmp : path) (c : string) :
  comparable (out ++ [c]) tmp -> comparable out tmp.
Proof.
  intros [H | H].
  - left. etrans; [|exact H]. now apply prefix_app_r.
  - apply prefix_snoc_inv in H as [H | ->]; [now right | left; now apply prefix_app_r].
Qed.

Lemma children_frame (S : path -> Prop) (d d' : gmap (list string) node) (k : path) :
  writes_in S d d' -> (forall c, ~ S (k ++ [c])) -> os.children d' k = os.children d k.
Proof.
  intros Hw Hn. apply leibniz_equiv. intros c. rewrite !elem_of_children.
  destruct (Hw (k ++ [c])) as [E | (Hs & _)]; [|now apply Hn in Hs].
  split; intros [x Hx]; exists x.
  - exact (eq_trans (eq_sym E) Hx).
  - exact (eq_trans E Hx).
Qed.

Lemma children_same (d d' : gmap (list string) node) (k : path) :
  (forall c, d' !! (k ++ [c]) = d !! (k ++ [c])) -> os.children d' k = os.children d k.
Proof.
  intros H. apply leibniz_equiv. intros c. rewrite !elem_of_children.
  split; intros [x Hx]; exists x.
  - exact (eq_trans (eq_sym (H c)) Hx).
  - exact (eq_trans (H c) Hx).
Qed.

Section ExpandToDir.
Variables target tmp : path.





End ExpandToDir.







(** Stores given by a list of entries. *)
Lemma proper_disk_list_to_map (l : list (list string * node)) :
  Forall (fun kv => Forall proper_name (fst kv)) l -> proper_disk (list_to_map l).
Proof.
  intros Hl k [v Hv]. apply elem_of_list_to_map_2 in Hv.
  rewrite Forall_forall in Hl. exact (Hl _ Hv).
Qed.


Ltac proper_names :=
  repeat match goal with
         | |- Forall _ [] => constructor
         | |- Forall _ (_ :: _) => constructor; cbn [fst]
         | |- proper_name _ => unfold proper_name; repeat split; discriminate
         end.


(** The third expansion next to [schedule1] and [schedule2]: it goes to
    [schedule3], and the two earlier ones keep their content. *)
Example third_expansion :
  let '(w, r) := ewsx.expand_to_dir ewsx.__init__ "schedules" twice_expanded_world in
  r = Returns tt /\
  schedule_target (disk twice_expanded_world) ["schedules"] = ["schedules"; "schedule3"] /\
  disk w !! ["schedules"; "schedule3"] = Some Dir /\
  disk w !! ["schedules"; "schedule3"; "media"] = Some Dir /\
  disk w !! ["schedules"; "schedule3"; "main.db"] = Some (File (Raw [x53; x51])) /\
  disk w !! ["schedules"; "schedule1"; "main.db"] = Some (File (Raw [x01])) /\
  disk w !! ["schedules"; "schedule2"; "main.db"] = Some (File (Raw [x02])) /\
  disk w !! ["tmp"; "tmpe1"] = None.
Proof. vm_compute. repeat split. Qed.

(** Two expansions in a row into a directory that does not exist yet:
    [schedule1], then [schedule2]. *)
Example two_expansions_in_a_row :
  let '(w, r) := (ewsx.expand_to_dir ewsx.__init__ "fresh" ;;
                  ewsx.expand_to_dir ewsx.__init__ "fresh") twice_expanded_world in
  r = Returns tt /\
  disk w !! ["fresh"; "schedule1"; "main.db"] = Some (File (Raw [x53; x51])) /\
  disk w !! ["fresh"; "schedule2"; "main.db"] = Some (File (Raw [x53; x51])) /\
  disk w !! ["fresh"; "schedule1"; "media"] = Some Dir /\
  disk w !! ["fresh"; "schedule2"; "media"] = Some Dir.
Proof. vm_compute. repeat split. Qed.

(** ** [Create] and the bundled template *)

Lemma lookup_error_IOError (d : gmap (list string) node) (rest done : path) (e : exn) :
  os.lookup_error d done rest = Some e -> is_IOError e = true.
Proof.
  revert done. induction rest as [|c rest IH]; intros done; simpl; [discriminate|].
  destruct rest as [|c' rest].
  - destruct (os.stat d done) as [[data|]|]; intros H; inversion H; reflexivity.
  - destruct (os.stat d done) as [[data|]|]; [| apply IH |]; intros H; inversion H; reflexivity.
Qed.








(** With the template in place, a fresh object is expanded to the
    directory [media] and the file [main.db] holding the template's
    bytes, and it is saved as an archive holding [main.db]. *)
Example fresh_object_saved :
  let '(w, r) := (a <- ewsx.Create ;; ewsx.save a "new.ewsx") twice_expanded_world in
  r = Returns tt /\
  disk w !! ["new.ewsx"]
    = Some (File (ZipImage [Member "main.db" ZIP_DEFLATED (Intact (Raw [x53; x51]))])).
Proof. vm_compute. repeat split. Qed.

(* ================================================================== *)
(** * Further properties of the two modules *)
(* ================================================================== *)

(** ** [dirname] and [rstrip] *)

















(** ** The expander: what it rejects, copies, keeps and leaves alone *)

Lemma read_raises_IOError (p : string) (w w' : World) (e : exn) :
  os.read p w = (w', Raises e) -> is_IOError e = true.
Proof.
  unfold os.read. destruct (negb (Str.truthy p)); [intros H; now inversion H|].
  destruct (os.parent_error (disk w) (os.resolve p)) as [e'|] eqn:E.
  - intros H. inversion H; subst. eapply lookup_error_IOError; exact E.
  - destruct (os.stat (disk w) (os.resolve p)) as [[data|]|];
      try destruct (Str.endswith p "/"); intros H; inversion H; reflexivity.
Qed.

Lemma read_returns (p : string) (w w' : World) (data : bytes) :
  os.read p w = (w', Returns data) -> os.stat (disk w) (os.resolve p) = Some (File data).
Proof.
  unfold os.read. destruct (negb (Str.truthy p)); [discriminate|].
  destruct (os.parent_error (disk w) (os.resolve p)); [discriminate|].
  destruct (os.stat (disk w) (os.resolve p)) as [[x|]|]; try discriminate.
  destruct (Str.endswith p "/"); [discriminate|]. intros H. now inversion H.
Qed.




(** X2. When the body of the [try] completes for an entry, the target
    file holds the bytes the member reads back, unchanged. *)
Theorem copy_member_copies_verbatim
    (z : zipfile.ZipFile) (output_dir file : string) (w w' : World) :
  unzip.copy_member z output_dir file w = (w', Returns tt) ->
  exists m data,
    zipfile.getinfo z file = Some m /\ stored m = Intact data /\
    disk w' !! os.resolve (posixpath.join output_dir
                             (unzip.out_file (platform_system w) file))
      = Some (File data).
Proof.
  intros H. unfold unzip.copy_member in H.
  apply bind_inv in H as [(w1 & pf & Hsys & H) | (e & _ & He)]; [|discriminate].
  unfold unzip.system in Hsys. inversion Hsys; subst w1 pf. clear Hsys.
  apply bind_inv in H as [(w1 & m & Hopen & H) | (e & _ & He)]; [|discriminate].
  pose proof (zipfile_open_spec _ _ _ _ _ Hopen) as ->.
  assert (Hinfo : zipfile.getinfo z file = Some m).
  { unfold zipfile.open in Hopen. destruct (zipfile.readable z w); [|discriminate].
    destruct (zipfile.getinfo z file) as [m'|]; [|discriminate].
    destruct (stored m'); now inversion Hopen. }
  apply bind_inv in H as [(w1 & h & Hwb & H) | (e & _ & He)]; [|discriminate].
  apply open_wb_spec in Hwb as [[_ [e He]] | (-> & Hh & _)]; [discriminate|].
  inversion Hh; subst h. clear Hh.
  apply bind_inv in H as [(w1 & data & Hrd & H) | (e & _ & He)]; [|discriminate].
  pose proof (zipfile_read_spec _ _ _ _ _ Hrd) as ->.
  assert (Hdata : stored m = Intact data).
  { unfold zipfile.read in Hrd.
    destruct (zipfile.readable z _ || zipfile.empty_stored m); [|discriminate].
    destruct (stored m); now inversion Hrd. }
  exists m, data. repeat split; try assumption.
  unfold os.write in H. simpl in H. rewrite lookup_insert_eq in H.
  inversion H; subst w'. simpl. apply lookup_insert_eq.
Qed.

Lemma copy_member_copies_verbatim_witness :
  exists m data,
    zipfile.getinfo partial_zip "a.txt" = Some m /\ stored m = Intact data /\
    disk (fst (unzip.copy_member partial_zip "out" "a.txt" partial_after_a))
      !! os.resolve (posixpath.join "out"
                       (unzip.out_file (platform_system partial_after_a) "a.txt"))
      = Some (File data).
Proof.
  apply (copy_member_copies_verbatim partial_zip "out" "a.txt" partial_after_a).
  vm_compute. reflexivity.
Defined.

(** Writes that replace no directory and remove nothing. *)
Lemma makedirs_grows (p : string) (w w' : World) (r : outcome unit) :
  os.makedirs p w = (w', r) -> writes_in (fun _ => True) (disk w) (disk w').
Proof.
  intros H k. apply makedirs_spec in H as (_ & _ & _ & Hk).
  destruct (Hk k) as [E | (Hnone & Hdir & _)]; [now left|].
  right. repeat split; [congruence | rewrite Hdir; eauto].
Qed.

Lemma copy_member_grows (z : zipfile.ZipFile) (output_dir file : string)
    (w w' : World) (r : outcome unit) :
  unzip.copy_member z output_dir file w = (w', r) ->
  writes_in (fun _ => True) (disk w) (disk w') /\ platform_system w' = platform_system w.
Proof.
  intros H. unfold unzip.copy_member in H.
  apply bind_inv in H as [(w1 & pf & Hsys & H) | (e & Hsys & _)];
    [|unfold unzip.system in Hsys; discriminate].
  unfold unzip.system in Hsys. inversion Hsys; subst w1 pf. clear Hsys.
  apply bind_inv in H as [(w1 & m & Hopen & H) | (e & Hopen & ->)];
    [|apply zipfile_open_spec in Hopen as ->; split; [apply writes_in_refl | reflexivity]].
  apply zipfile_open_spec in Hopen as ->.
  apply bind_inv in H as [(w1 & h & Hwb & H) | (e & Hwb & ->)].
  2:{ apply open_wb_spec in Hwb as [[-> _] | (_ & Hr & _)]; [|discriminate].
      split; [apply writes_in_refl | reflexivity]. }
  apply open_wb_spec in Hwb as [[_ [e He]] | (-> & Hh & Hnd)]; [discriminate|].
  assert (H1 : writes_in (fun _ => True) (disk w)
                 (<[os.resolve (posixpath.join output_dir
                       (unzip.out_file (platform_system w) file)) := File (Raw [])]> (disk w))).
  { apply writes_in_insert; [exact I | now apply stat_not_dir]. }
  apply bind_inv in H as [(w1 & data & Hrd & H) | (e & Hrd & ->)];
    [|apply zipfile_read_spec in Hrd as ->; split; [exact H1 | reflexivity]].
  apply zipfile_read_spec in Hrd as ->.
  apply write_spec in H as [_ [-> | [-> [x Hx]]]]; [split; [exact H1 | reflexivity]|].
  split; [|reflexivity]. eapply writes_in_trans; [exact H1|].
  simpl in *. apply writes_in_insert; [exact I | congruence].
Qed.

Lemma extract_entry_grows (z : zipfile.ZipFile) (output_dir file : string)
    (w w' : World) (r : outcome unit) :
  unzip.extract_entry z output_dir file w = (w', r) ->
  writes_in (fun _ => True) (disk w) (disk w') /\ platform_system w' = platform_system w.
Proof.
  intros H. unfold unzip.extract_entry in H.
  assert (Hmk : forall p wa wb rb, os.makedirs p wa = (wb, rb) ->
            writes_in (fun _ => True) (disk wa) (disk wb) /\
            platform_system wb = platform_system wa).
  { intros p wa wb rb Hp. split; [now apply makedirs_grows in Hp|].
    now apply makedirs_spec in Hp as (_ & ? & _). }
  destruct (unzip.is_directory file); [eapply Hmk; eauto|].
  apply bind_inv in H as [(w1 & [] & H1 & H) | (e & H1 & ->)]; [|eapply Hmk; eauto].
  apply Hmk in H1 as [H1 Hp1]. unfold try_except in H.
  destruct (unzip.copy_member z output_dir file w1) as [w2 [[]|e]] eqn:Hcp;
    apply copy_member_grows in Hcp as [H2 Hp2].
  - inversion H; subst. split; [eapply writes_in_trans; eauto | congruence].
  - apply print_disk in H as (Hd & Hpf & _). rewrite Hd.
    split; [eapply writes_in_trans; eauto | congruence].
Qed.

Lemma extract_loop_grows (z : zipfile.ZipFile) (output_dir : string) (files : list string)
    (w w' : World) (r : outcome unit) :
  for_each files (unzip.extract_entry z output_dir) w = (w', r) ->
  writes_in (fun _ => True) (disk w) (disk w') /\ platform_system w' = platform_system w.
Proof.
  revert w. induction files as [|file files IH]; intros w H; simpl in H.
  - inversion H; subst. split; [apply writes_in_refl | reflexivity].
  - apply bind_inv in H as [(w1 & [] & H1 & H) | (e & H1 & ->)].
    + apply extract_entry_grows in H1 as [H1 Hp1]. apply IH in H as [H2 Hp2].
      split; [eapply writes_in_trans; eauto | congruence].
    + now apply extract_entry_grows in H1.
Qed.

(** X3. Whatever the archive holds and however the call ends,
    [ExpandEWSXFile] removes no entry of the store and replaces no
    directory: what was a directory is one afterwards, and what existed
    still exists. *)
Theorem ExpandEWSXFile_never_removes
    (filepath output_dir : string) (w : World) (k : path) :
  (disk w !! k = Some Dir ->
   disk (fst (unzip.ExpandEWSXFile filepath output_dir w)) !! k = Some Dir) /\
  (is_Some (disk w !! k) ->
   is_Some (disk (fst (unzip.ExpandEWSXFile filepath output_dir w)) !! k)).
Proof.
  destruct (unzip.ExpandEWSXFile filepath output_dir w) as [w' r] eqn:H.
  assert (Hw : writes_in (fun _ => True) (disk w) (disk w')).
  { unfold unzip.ExpandEWSXFile in H.
    apply bind_inv in H as [(w1 & z & Hopen & H) | (e & Hopen & _)].
    - apply zipfile_open_r_spec in Hopen as [-> _]. now apply extract_loop_grows in H.
    - apply zipfile_open_r_spec in Hopen as [-> _]. apply writes_in_refl. }
  simpl. split.
  - now apply writes_in_keeps_dir with (S := fun _ => True).
  - intros Hk. destruct (Hw k) as [-> | (_ & _ & Hs)]; assumption.
Qed.

Lemma ExpandEWSXFile_never_removes_witness :
  (disk self_world !! ["out"] = Some Dir ->
   disk (fst (unzip.ExpandEWSXFile "out/self.ewsx" "out" self_world)) !! ["out"] = Some Dir) /\
  (is_Some (disk self_world !! ["out"]) ->
   is_Some (disk (fst (unzip.ExpandEWSXFile "out/self.ewsx" "out" self_world)) !! ["out"])).
Proof. apply (ExpandEWSXFile_never_removes "out/self.ewsx" "out" self_world ["out"]). Defined.

(** ** The expander stays in its output directory *)

Lemma around_proper (Z k : path) : around Z k -> Forall proper_name k.
Proof. now intros [H _]. Qed.

Lemma zone_around (Z : path) : zone (around Z) Z.
Proof. intros q Hq Hc. now split. Qed.







(** ** [from_file]: what it returns, what it rejects, what it leaves *)


Lemma for_fold_invariant {A T} (P : T -> Prop) (l : list A) (body : T -> A -> M T) :
  (forall s x w w' s', P s -> body s x w = (w', Returns s') -> P s') ->
  forall s w w' s', P s -> for_fold l s body w = (w', Returns s') -> P s'.
Proof.
  intros Hb. induction l as [|x l IH]; intros s w w' s' Hs H; simpl in H.
  - inversion H; now subst.
  - apply bind_inv in H as [(w1 & s1 & H1 & H) | (e & _ & He)]; [|discriminate].
    eapply IH; [|exact H]. eapply Hb; eauto.
Qed.

Lemma append_file_loaded (filename : string) (self a : ewsx.EWSXFIle)
    (entry : string * bytes) (w w' : World) :
  loaded_from filename self -> ewsx.append_file self entry w = (w', Returns a) ->
  loaded_from filename a.
Proof.
  intros (Ho & Hf & Hd) H. unfold ewsx.append_file, ewsx.getattr, bind in H.
  destruct (ewsx.files_list self); simpl in H; [|discriminate].
  inversion H; subst. repeat split; simpl; eauto.
Qed.

Lemma append_dir_loaded (filename : string) (self a : ewsx.EWSXFIle)
    (dir : string) (w w' : World) :
  loaded_from filename self -> ewsx.append_dir self dir w = (w', Returns a) ->
  loaded_from filename a.
Proof.
  intros (Ho & Hf & Hd) H. unfold ewsx.append_dir, ewsx.getattr, bind in H.
  destruct (ewsx.dirs_list self); simpl in H; [|discriminate].
  inversion H; subst. repeat split; simpl; eauto.
Qed.

(** X5. The object [from_file(filename)] returns has [filename] as its
    origin, and both of its lists exist: later calls read it as a loaded
    archive exactly when [filename] is not the empty string. *)
Theorem from_file_sets_origin
    (self a : ewsx.EWSXFIle) (filename : string) (w w' : World) :
  ewsx.from_file self filename w = (w', Returns a) ->
  loaded_from filename a /\ ewsx.has_existing_file a = Str.truthy filename.
Proof.
  intros H.
  assert (Hl : loaded_from filename a).
  { unfold ewsx.from_file, tempfile.TemporaryDirectory in H.
    apply bind_inv in H as [(w1 & name & _ & H) | (e & _ & He)]; [|discriminate].
    unfold finally in H.
    match type of H with
    | (let '(_, _) := ?body w1 in _) = _ => destruct (body w1) as [w2 r2] eqn:Hbody
    end.
    inversion H; subst w' r2. clear H.
    apply bind_inv in Hbody as [(w3 & [] & _ & H) | (e & _ & He)]; [|discriminate].
    apply bind_inv in H as [(w4 & triples & _ & H) | (e & _ & He)]; [|discriminate].
    revert H. apply (for_fold_invariant (loaded_from filename)).
    - intros s [[root dirs] files] wa wb s' Hs Hstep.
      apply bind_inv in Hstep as [(wc & s1 & Hfiles & Hdirs) | (e & _ & He)];
        [|discriminate].
      revert Hdirs. apply (for_fold_invariant (loaded_from filename)).
      + intros s2 dir wd we s3 Hs2 Hd. eapply append_dir_loaded; eauto.
      + revert Hfiles. apply (for_fold_invariant (loaded_from filename)); [|exact Hs].
        intros s2 file wd we s3 Hs2 Hf.
        apply bind_inv in Hf as [(wf & data & _ & Hf) | (e & _ & He)]; [|discriminate].
        eapply append_file_loaded; eauto.
    - repeat split; simpl; eauto. }
  split; [exact Hl|]. destruct Hl as (Ho & _). unfold ewsx.has_existing_file.
  now rewrite Ho.
Qed.

Lemma from_file_sets_origin_witness :
  loaded_from "a.ewsx"
    (ewsx.mkEWSXFIle (Some "a.ewsx") (Some [("main.db", Raw [x53; x51; x4c])]) (Some ["media"]))
  /\ ewsx.has_existing_file
       (ewsx.mkEWSXFIle (Some "a.ewsx") (Some [("main.db", Raw [x53; x51; x4c])]) (Some ["media"]))
     = Str.truthy "a.ewsx".
Proof.
  apply (from_file_sets_origin ewsx.__init__ _ "a.ewsx" usual_world
           (fst (ewsx.from_file ewsx.__init__ "a.ewsx" usual_world))).
  vm_compute. reflexivity.
Defined.








(** ** Temporary directories of [save] and [expand_to_dir] *)

Lemma temporary_directory_removed {A} (body : string -> M A) (name : string)
    (w w1 w' : World) (r : outcome A) :
  tempfile.mkdtemp w = (w1, Returns name) ->
  tempfile.TemporaryDirectory body w = (w', r) ->
  forall k : path, os.resolve name `prefix_of` k -> disk w' !! k = None.
Proof.
  intros Hmk H k Hk. unfold tempfile.TemporaryDirectory in H.
  rewrite (bind_returns _ _ _ _ _ Hmk) in H. unfold finally in H.
  destruct (body name w1) as [w2 r2]. inversion H; subst. simpl.
  now apply rmtree_key_lookup_below.
Qed.

(** X8. However [expand_to_dir] ends, nothing is left at the path of the
    temporary directory it made, or below it. *)
Theorem expand_to_dir_removes_temporary_directory
    (self : ewsx.EWSXFIle) (output_dir name : string) (w wa wb w' : World)
    (r : outcome unit) :
  os.makedirs output_dir w = (wa, Returns tt) ->
  tempfile.mkdtemp wa = (wb, Returns name) ->
  ewsx.expand_to_dir self output_dir w = (w', r) ->
  forall k : path, os.resolve name `prefix_of` k -> disk w' !! k = None.
Proof.
  intros Hout Hmk H k Hk. unfold ewsx.expand_to_dir in H.
  rewrite (bind_returns _ _ _ _ _ Hout) in H.
  apply bind_inv in H as [(w2 & sp & Htd & H) | (e & Htd & _)].
  - apply print_disk in H as (Hd & _). rewrite Hd.
    eapply temporary_directory_removed; eauto.
  - eapply temporary_directory_removed; eauto.
Qed.

Lemma expand_to_dir_removes_temporary_directory_witness :
  disk (fst (ewsx.expand_to_dir ewsx.__init__ "schedules" twice_expanded_world))
    !! ["tmp"; "tmpe1"; "main.db"] = None.
Proof.
  apply (expand_to_dir_removes_temporary_directory ewsx.__init__ "schedules" "/tmp/tmpe1"
           twice_expanded_world
           (fst (os.makedirs "schedules" twice_expanded_world))
           (fst (tempfile.mkdtemp (fst (os.makedirs "schedules" twice_expanded_world))))
           (fst (ewsx.expand_to_dir ewsx.__init__ "schedules" twice_expanded_world))
           (snd (ewsx.expand_to_dir ewsx.__init__ "schedules" twice_expanded_world)));
    [vm_compute; reflexivity .. | exists ["main.db"]; vm_compute; reflexivity].
Defined.

(** The archive being written is closed at the end of the [with] block:
    the file of the handle, when it is still there, gets the members. *)
Lemma close_lookup (h k : path) (w : World) :
  disk (zipfile.close h w) !! k
  = match disk w !! h with
    | Some (File _) => if decide (h = k) then Some (File (ZipImage (zip_out w))) else disk w !! k
    | _ => disk w !! k
    end.
Proof.
  unfold zipfile.close, os.write. destruct (disk w !! h) as [[x|]|] eqn:E; simpl; try reflexivity.
  destruct (decide (h = k)) as [<- | Hne];
    [apply lookup_insert_eq | now apply lookup_insert_ne].
Qed.

(** X9. However [save] ends, nothing is left at the path of the temporary
    directory it made, or below it. *)
Theorem save_removes_temporary_directory
    (self : ewsx.EWSXFIle) (filename name : string) (h : path) (w wa wb w' : World)
    (r : outcome unit) :
  os.open_wb filename w = (wa, Returns h) ->
  tempfile.mkdtemp (set_zip_out [] wa) = (wb, Returns name) ->
  ewsx.save self filename w = (w', r) ->
  forall k : path, os.resolve name `prefix_of` k -> disk w' !! k = None.
Proof.
  intros Hopen Hmk H k Hk.
  assert (Hclosed : forall wc rc,
             zipfile.open_w filename
               (fun z => tempfile.TemporaryDirectory (fun temp_dir =>
                  ewsx.stage self temp_dir ;;
                  triples <- os.walk temp_dir ;;
                  for_each triples (fun triple =>
                    let '(root, _, files) := triple in
                    for_each files (fun file =>
                      let full_path := posixpath.join root file in
                      let rel_path := posixpath_norm.relpath full_path temp_dir in
                      zipfile.write z full_path rel_path)))) ZIP_DEFLATED w = (wc, rc) ->
             disk wc !! k = None).
  { intros wc rc Hw. unfold zipfile.open_w in Hw.
    rewrite (bind_returns _ _ _ _ _ Hopen) in Hw.
    unfold bind at 1 in Hw. unfold finally in Hw.
    match type of Hw with
    | (let '(_, _) := ?body _ in _) = _ =>
        destruct (body (set_zip_out [] wa)) as [w2 r2] eqn:Hbody
    end.
    inversion Hw; subst wc rc. clear Hw.
    pose proof (temporary_directory_removed _ _ _ _ _ _ Hmk Hbody) as Hgone.
    rewrite close_lookup.
    destruct (disk w2 !! h) as [[x|]|] eqn:Eh; try (now apply Hgone).
    destruct (decide (h = k)) as [<- | Hne]; [|now apply Hgone].
    rewrite (Hgone h Hk) in Eh. discriminate. }
  unfold ewsx.save in H.
  apply bind_inv in H as [(w2 & [] & Hw & H) | (e & Hw & _)].
  - apply print_disk in H as (Hd & _). rewrite Hd. eapply Hclosed; eauto.
  - eapply Hclosed; eauto.
Qed.

Lemma save_removes_temporary_directory_witness :
  disk (fst (ewsx.save ewsx.__init__ "new.ewsx" twice_expanded_world))
    !! ["tmp"; "tmpe1"; "main.db"] = None.
Proof.
  apply (save_removes_temporary_directory ewsx.__init__ "new.ewsx" "/tmp/tmpe1" ["new.ewsx"]
           twice_expanded_world
           (fst (os.open_wb "new.ewsx" twice_expanded_world))
           (fst (tempfile.mkdtemp
                   (set_zip_out [] (fst (os.open_wb "new.ewsx" twice_expanded_world)))))
           (fst (ewsx.save ewsx.__init__ "new.ewsx" twice_expanded_world))
           (snd (ewsx.save ewsx.__init__ "new.ewsx" twice_expanded_world)));
    [vm_compute; reflexivity .. | exists ["main.db"]; vm_compute; reflexivity].
Defined.

(** ** [save] writes its destination and nothing else *)

Lemma zipfile_write_disk (method : compression) (filename arcname : string)
    (w w' : World) (r : outcome unit) :
  zipfile.write method filename arcname w = (w', r) -> disk w' = disk w.
Proof.
  unfold zipfile.write, os.isdir, bind.
  destruct (os.isdir_key (disk w) (os.resolve filename)).
  - intros H. now inversion H.
  - destruct (os.read filename w) as [w1 [data|e]] eqn:Hrd;
      apply read_spec in Hrd as ->; intros H; now inversion H.
Qed.

(** The body of the [with] blocks of [save], from the staging on. *)
Lemma save_body_around (self : ewsx.EWSXFIle) (z : compression) (temp_dir : string) :
  staging_safe self ->
  confined (around (os.resolve temp_dir))
    (ewsx.stage self temp_dir ;;
     triples <- os.walk temp_dir ;;
     for_each triples (fun triple =>
       let '(root, _, files) := triple in
       for_each files (fun file =>
         let full_path := posixpath.join root file in
         let rel_path := posixpath_norm.relpath full_path temp_dir in
         zipfile.write z full_path rel_path))).
Proof.
  intros Hsafe. pose proof (around_proper (os.resolve temp_dir)) as HS.
  apply (confined_seq _ HS).
  - apply (confined_stage _ HS); [apply zone_around | exact Hsafe].
  - intros _. apply (confined_seq _ HS).
    + apply confined_pure. intros w w' r H. unfold os.walk in H. now inversion H.
    + intros triples. apply (confined_for_each _ HS). intros [[root dirs] files] _.
      apply (confined_for_each _ HS). intros file _.
      apply confined_pure. intros w w' r H. now apply zipfile_write_disk in H.
Qed.

(** X10. [save] changes the store at its destination only: every other
    place apart from the temporary directory of the call (and the
    directories above it) holds afterwards what it held before, and the
    destination holds a zip container, whether [save] returns or raises
    on the way. This holds when the staged paths are relative and never
    step upwards and the destination lies apart from the temporary
    directory. *)
Theorem save_writes_destination_only
    (self : ewsx.EWSXFIle) (filename name : string) (h : path) (w wa wb w' : World)
    (r : outcome unit) :
  proper_disk (disk w) ->
  staging_safe self ->
  os.open_wb filename w = (wa, Returns h) ->
  tempfile.mkdtemp (set_zip_out [] wa) = (wb, Returns name) ->
  ~ comparable (os.resolve filename) (os.resolve name) ->
  ewsx.save self filename w = (w', r) ->
  (forall k : path,
      ~ comparable k (os.resolve name) -> k <> os.resolve filename ->
      disk w' !! k = disk w !! k) /\
  exists members, disk w' !! os.resolve filename = Some (File (ZipImage members)).
Proof.
  intros Hp Hsafe Hopen Hmk Hapart H.
  set (dest := os.resolve filename) in *. set (tmp := os.resolve name) in *.
  pose proof Hopen as Hspec.
  apply open_wb_spec in Hspec as [[_ [e He]] | (Hwa & Hh & Hnd)]; [discriminate|].
  inversion Hh; subst h. clear Hh. fold dest in Hwa, Hnd, Hopen.
  apply stat_not_dir in Hnd.
  pose proof Hmk as Hmk'.
  apply mkdtemp_from_returns in Hmk' as (Hfree & Hdb & _). simpl in Hfree, Hdb.
  fold tmp in Hfree, Hdb. apply stat_None_not_root in Hfree as [_ Hfree].
  assert (Hda : disk wa = <[dest := File (Raw [])]> (disk w)) by now rewrite Hwa.
  assert (Hpa : proper_disk (disk wa)).
  { rewrite Hda. eapply (writes_in_proper (fun k => Forall proper_name k)); [auto | exact Hp|].
    apply writes_in_insert; [apply resolve_proper | exact Hnd]. }
  assert (Hpb : proper_disk (disk wb)).
  { rewrite Hdb. eapply (writes_in_proper (fun k => Forall proper_name k)); [auto | exact Hpa|].
    apply writes_in_insert; [apply resolve_proper | congruence]. }
  assert (Hclosed : forall wc rc,
             zipfile.open_w filename
               (fun z => tempfile.TemporaryDirectory (fun temp_dir =>
                  ewsx.stage self temp_dir ;;
                  triples <- os.walk temp_dir ;;
                  for_each triples (fun triple =>
                    let '(root, _, files) := triple in
                    for_each files (fun file =>
                      let full_path := posixpath.join root file in
                      let rel_path := posixpath_norm.relpath full_path temp_dir in
                      zipfile.write z full_path rel_path)))) ZIP_DEFLATED w = (wc, rc) ->
             (forall k, ~ comparable k tmp -> k <> dest -> disk wc !! k = disk w !! k) /\
             exists members, disk wc !! dest = Some (File (ZipImage members))).
  { intros wc rc Hw. unfold zipfile.open_w in Hw.
    rewrite (bind_returns _ _ _ _ _ Hopen) in Hw.
    unfold bind at 1 in Hw. unfold finally in Hw.
    match type of Hw with
    | (let '(_, _) := ?body _ in _) = _ =>
        destruct (body (set_zip_out [] wa)) as [w2 r2] eqn:Hbody
    end.
    inversion Hw; subst wc rc. clear Hw.
    unfold tempfile.TemporaryDirectory in Hbody.
    rewrite (bind_returns _ _ _ _ _ Hmk) in Hbody. unfold finally in Hbody.
    match type of Hbody with
    | (let '(_, _) := ?inner wb in _) = _ => destruct (inner wb) as [w3 r3] eqn:Hin
    end.
    inversion Hbody; subst w2 r2. clear Hbody.
    apply (save_body_around self ZIP_DEFLATED name Hsafe _ _ _ Hpb) in Hin.
    fold tmp in Hin.
    assert (Hkeep : forall k, ~ comparable k tmp ->
               disk (tempfile.cleanup name w3) !! k = disk wa !! k).
    { intros k Hk. simpl. fold tmp.
      rewrite rmtree_key_lookup_other by (intros Hpre; apply Hk; now right).
      destruct (Hin k) as [E | ([_ Hc] & _)]; [|contradiction].
      rewrite E, Hdb. apply lookup_insert_ne. intros <-. apply Hk, comparable_refl. }
    assert (Hdest : disk (tempfile.cleanup name w3) !! dest = Some (File (Raw []))).
    { rewrite (Hkeep dest Hapart), Hda. apply lookup_insert_eq. }
    split.
    - intros k Hk Hne. rewrite close_lookup, Hdest.
      destruct (decide (dest = k)) as [E | _]; [congruence|].
      rewrite (Hkeep k Hk), Hda. now apply lookup_insert_ne.
    - eexists. rewrite close_lookup, Hdest.
      destruct (decide (dest = dest)) as [_ | Hne]; [reflexivity | congruence]. }
  unfold ewsx.save in H.
  apply bind_inv in H as [(w2 & [] & Hw & H) | (e & Hw & _)].
  - apply print_disk in H as (Hd & _). rewrite Hd. eapply Hclosed; eauto.
  - eapply Hclosed; eauto.
Qed.

Lemma save_writes_destination_only_witness :
  (forall k : path,
      ~ comparable k (os.resolve "/tmp/tmpe1") -> k <> os.resolve "new.ewsx" ->
      disk (fst (ewsx.save ewsx.__init__ "new.ewsx" twice_expanded_world)) !! k
        = disk twice_expanded_world !! k) /\
  exists members,
    disk (fst (ewsx.save ewsx.__init__ "new.ewsx" twice_expanded_world))
      !! os.resolve "new.ewsx" = Some (File (ZipImage members)).
Proof.
  apply (save_writes_destination_only ewsx.__init__ "new.ewsx" "/tmp/tmpe1" ["new.ewsx"]
           twice_expanded_world
           (fst (os.open_wb "new.ewsx" twice_expanded_world))
           (fst (tempfile.mkdtemp
                   (set_zip_out [] (fst (os.open_wb "new.ewsx" twice_expanded_world)))))
           (fst (ewsx.save ewsx.__init__ "new.ewsx" twice_expanded_world))
           (snd (ewsx.save ewsx.__init__ "new.ewsx" twice_expanded_world))).
  - apply proper_disk_list_to_map. simpl. proper_names.
  - split; constructor.
  - vm_compute. reflexivity.
  - vm_compute. reflexivity.
  - vm_compute. intros [[s H] | [s H]]; discriminate.
  - apply surjective_pairing.
Defined.

(** ** The listing of [structure] *)

Lemma structure_files_none (f : string) (files_set explored : list string) :
  (forall x, x ∈ files_set -> Str.startswith x f = false) ->
  ewsx.structure_files f files_set explored = ([], explored).
Proof.
  unfold ewsx.structure_files. generalize (@nil string) as files.
  induction files_set as [|x files_set IH]; intros files Hno; [reflexivity|].
  cbn [fold_left]. rewrite (Hno x) by left. apply IH.
  intros y Hy. apply Hno. now right.
Qed.

Lemma structure_fold_plain (files_set l explored : list string) (struct : string) :
  NoDup l ->
  (forall f, f ∈ l -> f ∉ explored) ->
  (forall f x, f ∈ l -> unzip.is_directory f = true -> x ∈ files_set ->
               Str.startswith x f = false) ->
  fold_left (ewsx.structure_step files_set) l (explored, struct)
    = (explored ++ l, struct +:+ listing l).
Proof.
  revert explored struct.
  induction l as [|f l IH]; intros explored struct Hnd Hnew Hflat.
  - unfold listing. simpl. rewrite app_nil_r. f_equal.
    induction struct as [|a s IHs]; simpl; congruence.
  - apply NoDup_cons in Hnd as [Hf Hnd]. cbn [fold_left].
    assert (Hstep : ewsx.structure_step files_set (explored, struct) f
                    = (explored ++ [f], struct +:+ listing_line f)).
    { unfold ewsx.structure_step, listing_line.
      destruct (unzip.is_directory f) eqn:Hd.
      - rewrite structure_files_none; [reflexivity|].
        intros x Hx. apply (Hflat f x); [left | exact Hd | exact Hx].
      - rewrite bool_decide_eq_false_2; [reflexivity|]. apply Hnew. left. }
    rewrite Hstep, IH.
    + rewrite <- app_assoc. unfold listing. cbn [map fold_right app].
      now rewrite string_app_assoc.
    + exact Hnd.
    + intros g Hg Hin. apply elem_of_app in Hin as [Hin | Hin].
      * apply (Hnew g); [now right | exact Hin].
      * apply list_elem_of_singleton in Hin. congruence.
    + intros g x Hg. apply Hflat. now right.
Qed.

(** X11. For a loaded object in which no recorded file name starts with
    a name that is taken for a directory, and no name occurs twice,
    [structure()] is the recorded directory names followed by the
    recorded file names, in order: each name taken for a directory is
    followed by ["/"] and a line break, while the other names follow one
    another with nothing between them. *)
Theorem structure_without_nesting
    (self : ewsx.EWSXFIle) (files : list (string * bytes)) (dirs : list string) :
  ewsx.has_existing_file self = true ->
  ewsx.files_list self = Some files ->
  ewsx.dirs_list self = Some dirs ->
  NoDup (dirs ++ map fst files) ->
  (forall f x, f ∈ dirs ++ map fst files -> unzip.is_directory f = true ->
               x ∈ map fst files -> Str.startswith x f = false) ->
  ewsx.structure_text self = Returns (listing (dirs ++ map fst files)).
Proof.
  intros He Hf Hd Hnd Hflat. unfold ewsx.structure_text.
  rewrite He, Hf, Hd. cbn [ewsx.attr].
  rewrite (structure_fold_plain (map fst files) (dirs ++ map fst files) [] "" Hnd).
  - reflexivity.
  - intros f _ Hin. now apply elem_of_nil in Hin.
  - exact Hflat.
Qed.

Lemma structure_without_nesting_witness :
  ewsx.structure_text
    (ewsx.mkEWSXFIle (Some "a.ewsx")
       (Some [("main.db", Raw [x53]); ("notes.txt", Raw [])]) (Some ["media"]))
    = Returns ("media/" +:+ Str.newline +:+ "main.dbnotes.txt").
Proof.
  apply (structure_without_nesting
           (ewsx.mkEWSXFIle (Some "a.ewsx")
              (Some [("main.db", Raw [x53]); ("notes.txt", Raw [])]) (Some ["media"]))
           [("main.db", Raw [x53]); ("notes.txt", Raw [])] ["media"]).
  - reflexivity.
  - reflexivity.
  - reflexivity.
  - apply (bool_decide_unpack _). vm_compute. exact I.
  - intros f x Hf Hd Hx. simpl in Hf, Hx.
    repeat (apply elem_of_cons in Hf as [-> | Hf]);
      try (now apply elem_of_nil in Hf); try (vm_compute in Hd; discriminate Hd).
    repeat (apply elem_of_cons in Hx as [-> | Hx]);
      try (now apply elem_of_nil in Hx); vm_compute; reflexivity.
Defined.

(** ** What the calls print *)

Ltac quiet_prim :=
  let H := fresh "H" in
  intros ? ? ? H; repeat case_match; simplify_eq; reflexivity.

Lemma quiet_ret {A} (a : A) : quiet (ret a).
Proof. unfold quiet, ret. quiet_prim. Qed.


Lemma quiet_bind {A B} (m : M A) (f : A -> M B) :
  quiet m -> (forall a, quiet (f a)) -> quiet (bind m f).
Proof.
  intros Hm Hf w w' r H. apply bind_inv in H as [(w1 & a & H1 & H2) | (e & H1 & _)].
  - rewrite (Hf a _ _ _ H2). exact (Hm _ _ _ H1).
  - exact (Hm _ _ _ H1).
Qed.


Lemma quiet_for_each {A} (l : list A) (body : A -> M unit) :
  (forall x, quiet (body x)) -> quiet (for_each l body).
Proof.
  intros Hb. induction l as [|x l IH]; simpl; [apply quiet_ret|].
  apply quiet_bind; [apply Hb | intros _; exact IH].
Qed.


Lemma quiet_mkdir (p : string) : quiet (os.mkdir p).
Proof. unfold quiet, os.mkdir. quiet_prim. Qed.

Lemma quiet_makedirs (p : string) : quiet (os.makedirs p).
Proof. unfold quiet, os.makedirs. quiet_prim. Qed.

Lemma quiet_open_wb (p : string) : quiet (os.open_wb p).
Proof. unfold quiet, os.open_wb. quiet_prim. Qed.

Lemma quiet_write (h : path) (data : bytes) : quiet (os.write h data).
Proof. unfold quiet, os.write. quiet_prim. Qed.

Lemma quiet_read (p : string) : quiet (os.read p).
Proof. unfold quiet, os.read. quiet_prim. Qed.


Lemma quiet_isdir (p : string) : quiet (os.isdir p).
Proof. unfold quiet, os.isdir. quiet_prim. Qed.

Lemma quiet_walk (top : string) : quiet (os.walk top).
Proof. unfold quiet, os.walk. quiet_prim. Qed.

Lemma quiet_getattr {A} (a : option A) : quiet (ewsx.getattr a).
Proof. unfold quiet, ewsx.getattr. quiet_prim. Qed.





Lemma quiet_mkdtemp_from (candidates : list string) :
  quiet (tempfile.mkdtemp_from candidates).
Proof.
  induction candidates as [|c rest IH]; intros w w' r H; simpl in H.
  - now inversion H.
  - destruct (os.mkdir c w) as [w1 [[]|e]] eqn:Hmk; apply quiet_mkdir in Hmk.
    + inversion H; subst. exact Hmk.
    + destruct e; try (inversion H; subst; exact Hmk).
      rewrite <- Hmk. exact (IH _ _ _ H).
Qed.

Lemma quiet_TemporaryDirectory {A} (body : string -> M A) :
  (forall name, quiet (body name)) -> quiet (tempfile.TemporaryDirectory body).
Proof.
  intros Hb w w' r H. unfold tempfile.TemporaryDirectory in H.
  apply bind_inv in H as [(w1 & name & Hmk & H) | (e & Hmk & _)];
    apply quiet_mkdtemp_from in Hmk; [|exact Hmk].
  unfold finally in H. destruct (body name w1) as [w2 r2] eqn:E.
  inversion H; subst. simpl. rewrite (Hb _ _ _ _ E). exact Hmk.
Qed.

Lemma quiet_stage (self : ewsx.EWSXFIle) (temp_dir : string) :
  quiet (ewsx.stage self temp_dir).
Proof.
  unfold ewsx.stage. destruct (negb (ewsx.has_existing_file self)).
  - apply quiet_bind; [apply quiet_mkdir | intros _].
    apply quiet_bind; [apply quiet_open_wb | intros f].
    apply quiet_bind; [apply quiet_read | intros data; apply quiet_write].
  - apply quiet_bind; [apply quiet_getattr | intros dirs].
    apply quiet_bind; [apply quiet_for_each; intros dir; apply quiet_makedirs | intros _].
    apply quiet_bind; [apply quiet_getattr | intros files].
    apply quiet_for_each. intros file.
    apply quiet_bind; [apply quiet_open_wb | intros h; apply quiet_write].
Qed.













(** ** The line of [save] *)

Lemma quiet_zipfile_write (method : compression) (filename arcname : string) :
  quiet (zipfile.write method filename arcname).
Proof.
  unfold zipfile.write. apply quiet_bind; [apply quiet_isdir | intros [|]].
  - unfold quiet. quiet_prim.
  - apply quiet_bind; [apply quiet_read | intros data]. unfold quiet. quiet_prim.
Qed.

Lemma quiet_open_w {A} (filename : string) (body : compression -> M A)
    (method : compression) :
  quiet (body method) -> quiet (zipfile.open_w filename body method).
Proof.
  intros Hb. unfold zipfile.open_w.
  apply quiet_bind; [apply quiet_open_wb | intros h].
  apply quiet_bind; [unfold quiet; quiet_prim | intros _].
  intros w w' r H. unfold finally in H.
  destruct (body method w) as [w1 r1] eqn:E. inversion H; subst.
  rewrite <- (Hb _ _ _ E). unfold zipfile.close.
  exact (quiet_write h _ w1 _ _ (surjective_pairing _)).
Qed.

(** X13. [save] prints its line when it returns and only then: after a
    call that returns, the output has grown by the one line that names the
    absolute path of the destination; after a call that raises, the
    output is what it was. *)
Theorem save_reports_on_success_only
    (self : ewsx.EWSXFIle) (filename : string) (w w' : World) (r : outcome unit) :
  ewsx.save self filename w = (w', r) ->
  stdout w'
    = stdout w ++
      match r with
      | Returns _ => [Successfully_saved (posixpath_norm.abspath filename)]
      | Raises _ => []
      end.
Proof.
  intros H. unfold ewsx.save in H.
  assert (Hq : forall z, quiet
            (tempfile.TemporaryDirectory (fun temp_dir =>
               ewsx.stage self temp_dir ;;
               triples <- os.walk temp_dir ;;
               for_each triples (fun triple =>
                 let '(root, _, files) := triple in
                 for_each files (fun file =>
                   let full_path := posixpath.join root file in
                   let rel_path := posixpath_norm.relpath full_path temp_dir in
                   zipfile.write z full_path rel_path))))).
  { intros z. apply quiet_TemporaryDirectory. intros temp_dir.
    apply quiet_bind; [apply quiet_stage | intros _].
    apply quiet_bind; [apply quiet_walk | intros triples].
    apply quiet_for_each. intros [[root dirs] files].
    apply quiet_for_each. intros file. apply quiet_zipfile_write. }
  apply bind_inv in H as [(w1 & [] & Hw & H) | (e & Hw & ->)];
    apply (quiet_open_w _ _ _ (Hq ZIP_DEFLATED)) in Hw.
  - apply print_spec in H as [(_ & -> & ->) | (_ & -> & ->)].
    + cbn [stdout set_stdout]. now rewrite Hw.
    + now rewrite Hw, app_nil_r.
  - now rewrite Hw, app_nil_r.
Qed.

Lemma save_reports_on_success_only_witness :
  stdout (fst (ewsx.save ewsx.__init__ "new.ewsx" twice_expanded_world))
    = stdout twice_expanded_world ++
      match snd (ewsx.save ewsx.__init__ "new.ewsx" twice_expanded_world) with
      | Returns _ => [Successfully_saved (posixpath_norm.abspath "new.ewsx")]
      | Raises _ => []
      end.
Proof.
  apply (save_reports_on_success_only ewsx.__init__ "new.ewsx" twice_expanded_world).
  apply surjective_pairing.
Defined.

(** ** The errors that leave [ExpandEWSXFile] *)

Lemma makedirs_from_raises_IOError (rest done : path) (d d' : gmap (list string) node)
    (e : exn) :
  os.makedirs_from done rest d = (d', Raises e) -> is_IOError e = true.
Proof.
  revert done d. induction rest as [|c rest IH]; intros done d H; simpl in H.
  - discriminate H.
  - destruct (os.stat d (done ++ [c])) as [[data|]|].
    + inversion H; subst. now destruct rest.
    + exact (IH _ _ H).
    + exact (IH _ _ H).
Qed.

Lemma makedirs_raises_IOError (p : string) (w w' : World) (e : exn) :
  os.makedirs p w = (w', Raises e) -> is_IOError e = true.
Proof.
  unfold os.makedirs. destruct (negb (Str.truthy p)); [intros H; now inversion H|].
  destruct (os.makedirs_from [] (os.resolve p) (disk w)) as [d r] eqn:E.
  intros H. inversion H; subst. exact (makedirs_from_raises_IOError _ _ _ _ _ E).
Qed.

Lemma open_r_raises (filepath : string) (w w' : World) (e : exn) :
  zipfile.open_r filepath w = (w', Raises e) -> e = BadZipFile \/ is_IOError e = true.
Proof.
  unfold zipfile.open_r. intros H.
  apply bind_inv in H as [(w1 & data & _ & H) | (e' & Hrd & Heq)].
  - destruct data; inversion H. now left.
  - inversion Heq; subst. right. exact (read_raises_IOError _ _ _ _ Hrd).
Qed.

Lemma for_each_raises {A} (l : list A) (body : A -> M unit) (w w' : World) (e : exn) :
  for_each l body w = (w', Raises e) ->
  exists x w1, x ∈ l /\ body x w1 = (w', Raises e).
Proof.
  revert w. induction l as [|x l IH]; intros w H; simpl in H; [discriminate H|].
  apply bind_inv in H as [(w1 & [] & _ & H) | (e' & Hx & Heq)].
  - destruct (IH _ H) as (y & w2 & Hy & Hb). exists y, w2. split; [now right | exact Hb].
  - inversion Heq; subst. exists x, w. split; [left | exact Hx].
Qed.

(** An entry raises only outside its [try]: when its directory cannot be
    made, or when the line of the handler cannot be printed. *)
Lemma extract_entry_raises (z : zipfile.ZipFile) (output_dir file : string)
    (w w' : World) (e : exn) :
  unzip.extract_entry z output_dir file w = (w', Raises e) ->
  os.makedirs (entry_directory output_dir file) w = (w', Raises e) \/
  exists e0 w1 w2,
    os.makedirs (entry_directory output_dir file) w = (w1, Returns tt) /\
    unzip.copy_member z output_dir file w1 = (w2, Raises e0) /\
    print (Error_extracting file e0) w2 = (w', Raises e).
Proof.
  unfold unzip.extract_entry, entry_directory. destruct (unzip.is_directory file).
  - now left.
  - intros H. apply bind_inv in H as [(w1 & [] & Hmk & H) | (e' & Hmk & Heq)].
    + right. unfold try_except in H.
      destruct (unzip.copy_member z output_dir file w1) as [w2 [[]|e0]] eqn:Hcp;
        [discriminate H|].
      exists e0, w1, w2. repeat split; assumption.
    + inversion Heq; subst. now left.
Qed.

(** X14. The errors of the [try] block never leave [ExpandEWSXFile]:
    whatever the call raises was raised by opening the archive, by
    [os.makedirs] for an entry, or by the [print] of the handler after
    the copy of an entry failed. *)
Theorem ExpandEWSXFile_raises_outside_try
    (filepath output_dir : string) (w w' : World) (e : exn) :
  unzip.ExpandEWSXFile filepath output_dir w = (w', Raises e) ->
  zipfile.open_r filepath w = (w', Raises e) \/
  exists z file w1,
    zipfile.open_r filepath w = (w, Returns z) /\ file ∈ zipfile.namelist z /\
    (os.makedirs (entry_directory output_dir file) w1 = (w', Raises e) \/
     exists e0 w2 w3,
       unzip.copy_member z output_dir file w2 = (w3, Raises e0) /\
       print (Error_extracting file e0) w3 = (w', Raises e)).
Proof.
  intros H. unfold unzip.ExpandEWSXFile in H.
  apply bind_inv in H as [(w1 & z & Hopen & H) | (e' & Hopen & Heq)].
  - right. pose proof (zipfile_open_r_spec _ _ _ _ Hopen) as [-> _].
    apply for_each_raises in H as (file & w2 & Hin & H).
    exists z, file, w2. repeat split; [exact Hopen | exact Hin|].
    apply extract_entry_raises in H as [H | (e0 & w3 & w4 & _ & Hcp & Hpr)].
    + now left.
    + right. exists e0, w3, w4. split; assumption.
  - inversion Heq; subst. now left.
Qed.

Lemma ExpandEWSXFile_raises_outside_try_witness :
  zipfile.open_r "k.ewsx" blocked_world
    = (fst (unzip.ExpandEWSXFile "k.ewsx" "out" blocked_world), Raises FileExistsError) \/
  exists z file w1,
    zipfile.open_r "k.ewsx" blocked_world = (blocked_world, Returns z) /\
    file ∈ zipfile.namelist z /\
    (os.makedirs (entry_directory "out" file) w1
       = (fst (unzip.ExpandEWSXFile "k.ewsx" "out" blocked_world), Raises FileExistsError) \/
     exists e0 w2 w3,
       unzip.copy_member z "out" file w2 = (w3, Raises e0) /\
       print (Error_extracting file e0) w3
         = (fst (unzip.ExpandEWSXFile "k.ewsx" "out" blocked_world), Raises FileExistsError)).
Proof.
  apply (ExpandEWSXFile_raises_outside_try "k.ewsx" "out" blocked_world).
  vm_compute. reflexivity.
Defined.

(** ** Failures of single entries *)

(** C6 (as stated, refuted). The member [b.txt] has broken deflate data:
    its failure is caught and printed and [a.txt] is extracted. The next
    member lies below [a.txt], which is a file by then, so [os.makedirs],
    outside the [try], raises: the call ends with [FileExistsError] and
    the last member, [z.txt], is never processed. *)
Lemma ExpandEWSXFile_stops_at_makedirs :
  let '(w, r) := unzip.ExpandEWSXFile "k.ewsx" "out" blocked_world in
  r = Raises FileExistsError /\
  stdout w = [Error_extracting "b.txt" ZlibError] /\
  disk w !! ["out"; "a.txt"] = Some (File (Raw [x61])) /\
  disk w !! ["out"; "z.txt"] = None.
Proof. vm_compute. repeat split. Qed.



(** ** Members that are taken for directories *)

Lemma for_each_returns_elem {A} (l : list A) (body : A -> M unit) (w w' : World) (x : A) :
  for_each l body w = (w', Returns tt) -> x ∈ l ->
  exists w1 w2 rest,
    body x w1 = (w2, Returns tt) /\ for_each rest body w2 = (w', Returns tt).
Proof.
  revert w. induction l as [|y l IH]; intros w H Hx; [now apply elem_of_nil in Hx|].
  simpl in H. apply bind_inv in H as [(w1 & [] & Hy & H) | (e & _ & Heq)];
    [|discriminate Heq].
  apply elem_of_cons in Hx as [-> | Hx].
  - exists w, w1, l. split; assumption.
  - exact (IH _ H Hx).
Qed.

(** X15. A member whose name is taken for a directory, because it ends
    with a separator or because its last segment has no dot, is expanded
    as a directory whatever it holds: when [ExpandEWSXFile] returns, a
    directory stands at its place below [output_dir]. A file named
    [README] in the archive is a directory [README] afterwards. *)
Theorem ExpandEWSXFile_expands_dotless_names_as_directories
    (filepath output_dir : string) (members : list member) (m : member) (w w' : World) :
  os.stat (disk w) (os.resolve filepath) = Some (File (ZipImage members)) ->
  m ∈ members ->
  unzip.is_directory (filename m) = true ->
  unzip.ExpandEWSXFile filepath output_dir w = (w', Returns tt) ->
  os.stat (disk w') (os.resolve (posixpath.join output_dir (filename m))) = Some Dir.
Proof.
  intros Hsrc Hm Hdir H. unfold unzip.ExpandEWSXFile in H.
  apply bind_inv in H as [(w0 & z & Hopen & H) | (e & _ & Heq)]; [|discriminate Heq].
  apply zipfile_open_r_spec in Hopen as [-> Hz].
  destruct (Hz z eq_refl) as (_ & _ & Hlist). rewrite Hsrc in Hlist.
  assert (Hin : filename m ∈ zipfile.namelist z).
  { unfold zipfile.namelist. apply list_elem_of_fmap. exists m. split; [reflexivity|].
    injection Hlist as <-. exact Hm. }
  destruct (for_each_returns_elem _ _ _ _ _ H Hin) as (w1 & w2 & rest & Hentry & Hrest).
  unfold unzip.extract_entry in Hentry. rewrite Hdir in Hentry.
  apply makedirs_returns_dir in Hentry.
  apply extract_loop_grows in Hrest as [Hrest _].
  destruct (os.resolve (posixpath.join output_dir (filename m))) as [|c k] eqn:E;
    [reflexivity|].
  exact (writes_in_keeps_dir _ _ _ _ Hrest Hentry).
Qed.

Lemma ExpandEWSXFile_expands_dotless_names_as_directories_witness :
  os.stat (disk (fst (unzip.ExpandEWSXFile "r.ewsx" "out" readme_world)))
          (os.resolve (posixpath.join "out" "README")) = Some Dir.
Proof.
  apply (ExpandEWSXFile_expands_dotless_names_as_directories "r.ewsx" "out"
           [Member "README" ZIP_DEFLATED (Intact (Raw [x68; x69]))]
           (Member "README" ZIP_DEFLATED (Intact (Raw [x68; x69]))) readme_world).
  - vm_compute. reflexivity.
  - left.
  - vm_compute. reflexivity.
  - vm_compute. reflexivity.
Defined.

(** ** [expand_to_dir] onto a file *)

Lemma lookup_error_None_dir (d : gmap (list string) node) (rest done : path) :
  rest <> [] -> os.lookup_error d done rest = None -> os.stat d done = Some Dir.
Proof.
  destruct rest as [|c [|c' rest]]; [congruence| |]; intros _; simpl;
    destruct (os.stat d done) as [[data|]|]; congruence.
Qed.

Lemma makedirs_from_onto_file (rest done : path) (d : gmap (list string) node)
    (data : bytes) :
  rest <> [] ->
  os.lookup_error d done rest = None ->
  d !! (done ++ rest) = Some (File data) ->
  os.makedirs_from done rest d = (d, Raises FileExistsError).
Proof.
  revert done. induction rest as [|c rest IH]; intros done Hne Hpar Hfile; [congruence|].
  assert (Hk : forall x, os.stat d (done ++ [x]) = d !! (done ++ [x]))
    by (intros x; destruct done; reflexivity).
  destruct rest as [|c' rest].
  - simpl. rewrite Hk, Hfile. reflexivity.
  - assert (Hnext : os.lookup_error d (done ++ [c]) (c' :: rest) = None).
    { simpl in Hpar. destruct (os.stat d done) as [[x|]|]; try discriminate Hpar.
      exact Hpar. }
    cbn [os.makedirs_from].
    rewrite (lookup_error_None_dir d (c' :: rest) (done ++ [c])) by (congruence || exact Hnext).
    apply IH; [congruence | exact Hnext|]. now rewrite <- app_assoc.
Qed.

(** X16. When [output_dir] names an existing file, [expand_to_dir]
    raises [FileExistsError] at its first step: the file stays, no
    temporary directory is made, nothing is staged and nothing is
    printed. *)
Theorem expand_to_dir_onto_file
    (self : ewsx.EWSXFIle) (output_dir : string) (data : bytes) (w : World) :
  os.parent_error (disk w) (os.resolve output_dir) = None ->
  os.stat (disk w) (os.resolve output_dir) = Some (File data) ->
  exists w',
    ewsx.expand_to_dir self output_dir w = (w', Raises FileExistsError) /\
    disk w' = disk w /\ stdout w' = stdout w /\ temp_candidates w' = temp_candidates w.
Proof.
  intros Hpar Hfile.
  assert (Hne : os.resolve output_dir <> []) by (intros E; rewrite E in Hfile; discriminate).
  assert (Hlook : disk w !! ([] ++ os.resolve output_dir) = Some (File data))
    by (simpl; destruct (os.resolve output_dir); [congruence | exact Hfile]).
  assert (Htruthy : Str.truthy output_dir = true)
    by (destruct output_dir; [now contradiction Hne | reflexivity]).
  exists (set_disk (disk w) w). split; [|repeat split].
  unfold ewsx.expand_to_dir, bind, os.makedirs. rewrite Htruthy. cbn [negb].
  now rewrite (makedirs_from_onto_file _ [] _ data Hne Hpar Hlook).
Qed.

Lemma expand_to_dir_onto_file_witness :
  exists w',
    ewsx.expand_to_dir ewsx.__init__ "sample_files/main.db" twice_expanded_world
      = (w', Raises FileExistsError) /\
    disk w' = disk twice_expanded_world /\ stdout w' = stdout twice_expanded_world /\
    temp_candidates w' = temp_candidates twice_expanded_world.
Proof.
  apply (expand_to_dir_onto_file ewsx.__init__ "sample_files/main.db" (Raw [x53; x51])
           twice_expanded_world).
  - vm_compute. reflexivity.
  - vm_compute. reflexivity.
Defined.

(* ================================================================== *)
(** * What [expand_to_dir] materializes *)
(* ================================================================== *)

(** ** Closed stores *)

Lemma stat_snoc (d : gmap (list string) node) (k : path) (c : string) :
  os.stat d (k ++ [c]) = d !! (k ++ [c]).
Proof. destruct k; reflexivity. Qed.

Lemma closed_below (d : gmap (list string) node) (k q : path) :
  closed_disk d -> q <> [] -> is_Some (d !! (k ++ q)) -> os.stat d k = Some Dir.
Proof.
  intros Hc. induction q as [|c q IH] using rev_ind; [congruence|]. intros _ Hs.
  rewrite app_assoc in Hs. apply (Hc _ _) in Hs.
  destruct q as [|a q]; [now rewrite app_nil_r in Hs|].
  apply IH; [discriminate|].
  replace (os.stat d (k ++ a :: q)) with (d !! (k ++ a :: q)) in Hs
    by (destruct k; reflexivity).
  rewrite Hs. eauto.
Qed.

Lemma closed_below_file (d : gmap (list string) node) (k q : path) (c : string) (x : bytes) :
  closed_disk d -> d !! (k ++ [c]) = Some (File x) -> q <> [] ->
  d !! ((k ++ [c]) ++ q) = None.
Proof.
  intros Hc Hf Hq. destruct (d !! ((k ++ [c]) ++ q)) as [v|] eqn:E; [|reflexivity].
  assert (Hs : os.stat d (k ++ [c]) = Some Dir) by (eapply closed_below; eauto).
  rewrite stat_snoc in Hs. congruence.
Qed.

Lemma closed_below_none (d : gmap (list string) node) (k q : path) (c : string) :
  closed_disk d -> d !! (k ++ [c]) = None -> d !! ((k ++ [c]) ++ q) = None.
Proof.
  intros Hc Hn. destruct q as [|a q]; [now rewrite app_nil_r|].
  destruct (d !! ((k ++ [c]) ++ a :: q)) as [v|] eqn:E; [|reflexivity].
  assert (Hs : os.stat d (k ++ [c]) = Some Dir)
    by (eapply closed_below; eauto; discriminate).
  rewrite stat_snoc in Hs. congruence.
Qed.

Lemma stat_insert_dir (d : gmap (list string) node) (k k' : path) :
  os.stat d k' = Some Dir -> os.stat (<[k := Dir]> d) k' = Some Dir.
Proof.
  destruct k' as [|a k']; [reflexivity|]. simpl. intros H.
  destruct (decide (k = a :: k')) as [->|Hne];
    [apply lookup_insert_eq | now rewrite lookup_insert_ne].
Qed.

Lemma closed_insert_dir (d : gmap (list string) node) (p : path) (c : string) :
  closed_disk d -> os.stat d p = Some Dir -> closed_disk (<[p ++ [c] := Dir]> d).
Proof.
  intros Hc Hp k' c' Hs. apply stat_insert_dir.
  destruct (decide (p ++ [c] = k' ++ [c'])) as [E|Hne].
  - apply app_inj_tail in E as [<- _]. exact Hp.
  - rewrite lookup_insert_ne in Hs by exact Hne. exact (Hc _ _ Hs).
Qed.

Lemma closed_insert_file (d : gmap (list string) node) (p : path) (c : string) (x : bytes) :
  closed_disk d -> os.stat d p = Some Dir -> d !! (p ++ [c]) <> Some Dir ->
  closed_disk (<[p ++ [c] := File x]> d).
Proof.
  intros Hc Hp Hnd k' c' Hs.
  assert (Hk' : os.stat d k' = Some Dir).
  { destruct (decide (p ++ [c] = k' ++ [c'])) as [E|Hne].
    - apply app_inj_tail in E as [<- _]. exact Hp.
    - rewrite lookup_insert_ne in Hs by exact Hne. exact (Hc _ _ Hs). }
  destruct k' as [|a k']; [reflexivity|]. simpl in *.
  rewrite lookup_insert_ne; [exact Hk'|]. intros E. rewrite E in Hnd. contradiction.
Qed.

(** With no error on the way down, the parent is a directory. *)
Lemma lookup_error_parent (d : gmap (list string) node) (rest done : path) (c : string) :
  os.lookup_error d done (rest ++ [c]) = None -> os.stat d (done ++ rest) = Some Dir.
Proof.
  revert done. induction rest as [|a rest IH]; intros done H.
  - rewrite app_nil_r. simpl in H.
    destruct (os.stat d done) as [[x|]|]; congruence.
  - replace (done ++ a :: rest) with ((done ++ [a]) ++ rest) by now rewrite <- app_assoc.
    apply IH. simpl in H. destruct (rest ++ [c]) eqn:E; [now destruct rest|].
    destruct (os.stat d done) as [[x|]|]; congruence.
Qed.

Lemma parent_error_parent (d : gmap (list string) node) (p : path) (c : string) :
  os.parent_error d (p ++ [c]) = None -> os.stat d p = Some Dir.
Proof. intros H. now apply (lookup_error_parent d p [] c). Qed.

Lemma keeps_closed_ret {A} (a : A) : keeps_closed (ret a).
Proof. intros w w' r Hc H. unfold ret in H. now inversion H; subst. Qed.

Lemma keeps_closed_pure {A} (m : M A) :
  (forall w w' r, m w = (w', r) -> disk w' = disk w) -> keeps_closed m.
Proof. intros Hm w w' r Hc H. now rewrite (Hm _ _ _ H). Qed.

Lemma keeps_closed_bind {A B} (m : M A) (f : A -> M B) :
  keeps_closed m -> (forall a, keeps_closed (f a)) -> keeps_closed (bind m f).
Proof.
  intros Hm Hf w w' r Hc H. apply bind_inv in H as [(w1 & a & H1 & H2) | (e & H1 & _)].
  - exact (Hf a _ _ _ (Hm _ _ _ Hc H1) H2).
  - exact (Hm _ _ _ Hc H1).
Qed.

Lemma keeps_closed_for_each {A} (l : list A) (body : A -> M unit) :
  (forall x, keeps_closed (body x)) -> keeps_closed (for_each l body).
Proof.
  intros Hb. induction l as [|x l IH]; simpl; [apply keeps_closed_ret|].
  apply keeps_closed_bind; [apply Hb | intros _; exact IH].
Qed.

Lemma keeps_closed_mkdir (p : string) : keeps_closed (os.mkdir p).
Proof.
  intros w w' [[]|e] Hc H.
  - pose proof H as H'. apply mkdir_returns in H' as [Hfree ->]. simpl.
    unfold os.mkdir in H. destruct (negb (Str.truthy p)); [discriminate|].
    destruct (os.parent_error (disk w) (os.resolve p)) eqn:E; [discriminate|].
    destruct (os.resolve p) as [|c k _] using rev_ind; [discriminate|].
    apply closed_insert_dir; [exact Hc | now apply parent_error_parent in E].
  - now apply mkdir_raises in H as ->.
Qed.

Lemma keeps_closed_open_wb (p : string) : keeps_closed (os.open_wb p).
Proof.
  intros w w' r Hc H. pose proof H as H'.
  apply open_wb_spec in H' as [[-> _] | (-> & -> & Hnd)]; [exact Hc|]. simpl.
  unfold os.open_wb in H. destruct (negb (Str.truthy p)); [discriminate|].
  destruct (os.parent_error (disk w) (os.resolve p)) eqn:E; [discriminate|].
  destruct (os.resolve p) as [|c k _] using rev_ind; [now destruct Hnd|].
  rewrite stat_snoc in Hnd.
  apply closed_insert_file; [exact Hc | now apply parent_error_parent in E | exact Hnd].
Qed.

Lemma keeps_closed_write (h : path) (data : bytes) : keeps_closed (os.write h data).
Proof.
  intros w w' r Hc H. apply write_spec in H as [_ [-> | [-> [x Hx]]]]; [exact Hc|]. simpl.
  destruct h as [|c k _] using rev_ind.
  - intros k' c' Hs. rewrite lookup_insert_ne in Hs by (now destruct k').
    pose proof (Hc _ _ Hs) as Hk. destruct k' as [|a k']; [reflexivity|].
    simpl in *. rewrite lookup_insert_ne by discriminate. exact Hk.
  - unfold path in *.
    apply closed_insert_file; [exact Hc | | rewrite Hx; discriminate].
    apply (Hc k c). rewrite Hx. eauto.
Qed.

Lemma makedirs_from_closed (rest done : path) (d d' : gmap (list string) node)
    (r : outcome unit) :
  closed_disk d -> os.stat d done = Some Dir ->
  os.makedirs_from done rest d = (d', r) -> closed_disk d'.
Proof.
  revert done d. induction rest as [|c rest IH]; intros done d Hc Hd H; simpl in H.
  - now inversion H; subst.
  - destruct (os.stat d (done ++ [c])) as [[x|]|] eqn:E.
    + now inversion H; subst.
    + exact (IH _ _ Hc E H).
    + refine (IH _ _ _ _ H).
      * now apply closed_insert_dir.
      * rewrite stat_snoc. apply lookup_insert_eq.
Qed.

Lemma keeps_closed_makedirs (p : string) : keeps_closed (os.makedirs p).
Proof.
  intros w w' r Hc H. unfold os.makedirs in H.
  destruct (negb (Str.truthy p)); [now inversion H; subst|].
  destruct (os.makedirs_from [] (os.resolve p) (disk w)) as [d r'] eqn:E.
  inversion H; subst. simpl. exact (makedirs_from_closed _ [] _ _ _ Hc eq_refl E).
Qed.

Lemma keeps_closed_mkdtemp_from (candidates : list string) :
  keeps_closed (tempfile.mkdtemp_from candidates).
Proof.
  induction candidates as [|c rest IH]; intros w w' r Hc H; simpl in H.
  - now inversion H; subst.
  - destruct (os.mkdir c w) as [w1 [[]|e]] eqn:Hmk;
      apply (keeps_closed_mkdir _ _ _ _ Hc) in Hmk.
    + now inversion H; subst.
    + destruct e; try (now inversion H; subst). exact (IH _ _ _ Hmk H).
Qed.

Lemma keeps_closed_stage (self : ewsx.EWSXFIle) (temp_dir : string) :
  keeps_closed (ewsx.stage self temp_dir).
Proof.
  unfold ewsx.stage. destruct (negb (ewsx.has_existing_file self)).
  - apply keeps_closed_bind; [apply keeps_closed_mkdir | intros _].
    apply keeps_closed_bind; [apply keeps_closed_open_wb | intros f].
    apply keeps_closed_bind; [|intros data; apply keeps_closed_write].
    apply keeps_closed_pure. intros w w' r H. now rewrite (read_spec _ _ _ _ H).
  - apply keeps_closed_bind;
      [apply keeps_closed_pure; intros w w' r H; unfold ewsx.getattr in H;
       now inversion H | intros dirs].
    apply keeps_closed_bind;
      [apply keeps_closed_for_each; intros dir; apply keeps_closed_makedirs | intros _].
    apply keeps_closed_bind;
      [apply keeps_closed_pure; intros w w' r H; unfold ewsx.getattr in H;
       now inversion H | intros files].
    apply keeps_closed_for_each. intros file.
    apply keeps_closed_bind; [apply keeps_closed_open_wb | intros h; apply keeps_closed_write].
Qed.

(** ** Places apart *)

Lemma comparable_sym (k q : path) : comparable k q -> comparable q k.
Proof. intros [H | H]; [now right | now left]. Qed.

Lemma apart_app (S D q : path) : ~ comparable S D -> ~ comparable (S ++ q) D.
Proof.
  intros Hn [H | H]; apply Hn.
  - left. etrans; [|exact H]. now apply prefix_app_r.
  - apply comparable_sym. eapply comparable_prefix; [exact H|]. now apply prefix_app_r.
Qed.

Lemma apart_below (S D q : path) (c : string) :
  ~ comparable S D -> ~ comparable (S ++ q) (D ++ [c]).
Proof.
  intros Hn Hc. apply (apart_app S D q Hn).
  apply comparable_sym. apply (comparable_snoc D (S ++ q) c). now apply comparable_sym.
Qed.

Lemma sibling_apart (D q : path) (c c' : string) :
  c <> c' -> ~ comparable (D ++ c' :: q) (D ++ [c]).
Proof.
  intros Hne [H | H]; apply prefix_app_inv in H as [x Hx]; simpl in Hx; congruence.
Qed.

Lemma below_not_prefix (D q : path) : q <> [] -> ~ (D ++ q) `prefix_of` D.
Proof.
  intros Hq H. apply prefix_length in H. rewrite length_app in H.
  destruct q; [congruence | simpl in H; lia].
Qed.

(** ** Copying a tree *)

Lemma copying_step (d0 d d' : gmap (list string) node) (S D : path)
    (done : list string) (c : string) :
  ~ comparable S D ->
  copying d0 S D done d ->
  c ∉ done ->
  writes_in (around (D ++ [c])) d d' ->
  (forall q : path, d' !! (D ++ c :: q) = d0 !! (S ++ c :: q)) ->
  copying d0 S D (c :: done) d'.
Proof.
  unfold path in *. intros Hn (Hp & Hsrc & HD & Hdone & Hrest) Hc Hw Hentry.
  assert (Hout : forall k, ~ comparable k (D ++ [c]) -> d' !! k = d !! k).
  { intros k Hk. destruct (Hw k) as [E | ([_ Hk'] & _)]; [exact E | contradiction]. }
  repeat split.
  - eapply writes_in_proper; [apply around_proper | exact Hp | exact Hw].
  - intros q. rewrite Hout by now apply apart_below. apply Hsrc.
  - destruct D as [|a D]; [reflexivity|]. simpl in *.
    now apply (writes_in_keeps_dir _ _ _ _ Hw).
  - intros c' q Hin. apply elem_of_cons in Hin as [-> | Hin]; [apply Hentry|].
    rewrite Hout; [now apply Hdone|]. apply sibling_apart. congruence.
  - intros c' q Hin. rewrite Hout.
    + apply Hrest. intros H. apply Hin. now right.
    + apply sibling_apart. intros ->. apply Hin. left.
Qed.

Lemma copying_done (d0 d : gmap (list string) node) (S D : path) (done : list string) :
  closed_disk d0 ->
  copying d0 S D done d ->
  (forall c : string, c ∉ done -> d0 !! (S ++ [c]) = None) ->
  copy_of d0 S d D.
Proof.
  unfold path in *. intros Hc (_ & _ & _ & Hdone & Hrest) Hmiss [|c q] Hq; [congruence|].
  destruct (decide (c ∈ done)) as [Hin | Hout]; [now apply Hdone|].
  rewrite (Hrest c q Hout). symmetry.
  change (S ++ c :: q) with (S ++ [c] ++ q). rewrite app_assoc.
  apply closed_below_none; [exact Hc | now apply Hmiss].
Qed.

(** One file of the source goes to the destination. *)
Lemma copyfile_entry (d0 : gmap (list string) node) (S D : path) (done : list string)
    (c src dst : string) (w w' : World) :
  closed_disk d0 ->
  copying d0 S D done (disk w) ->
  c ∉ done ->
  os.resolve src = S ++ [c] -> os.resolve dst = D ++ [c] ->
  shutil.copyfile src dst w = (w', Returns tt) ->
  writes_in (around (D ++ [c])) (disk w) (disk w') /\
  forall q : path, disk w' !! (D ++ c :: q) = d0 !! (S ++ c :: q).
Proof.
  unfold path in *. intros Hc (Hp & Hsrc & HD & Hdone & Hrest) Hnew Es Ed H. split.
  - eapply (confined_copyfile _ (around_proper (D ++ [c])) src dst); [|exact Hp|exact H].
    rewrite Ed. split; [rewrite <- Ed; apply resolve_proper | apply comparable_refl].
  - unfold shutil.copyfile in H.
    destruct (bool_decide (os.resolve src = os.resolve dst)); [discriminate H|].
    apply bind_inv in H as [(w1 & data & Hrd & H) | (e & _ & He)]; [|discriminate He].
    pose proof (read_spec _ _ _ _ Hrd) as ->. apply read_returns in Hrd.
    rewrite Es, stat_snoc in Hrd.
    apply bind_inv in H as [(w1 & h & Hwb & H) | (e & _ & He)]; [|discriminate He].
    apply open_wb_spec in Hwb as [[_ [e He]] | (-> & Hh & _)]; [discriminate He|].
    inversion Hh; subst h. clear Hh. rewrite Ed in H.
    unfold os.write in H. simpl in H. rewrite lookup_insert_eq in H.
    inversion H; subst w'. clear H. simpl. intros [|a q].
    + rewrite lookup_insert_eq. rewrite <- (Hsrc [c]). now rewrite Hrd.
    + assert (Hne : D ++ [c] <> D ++ c :: a :: q)
        by (intros E; apply app_inv_head in E; discriminate E).
      rewrite !lookup_insert_ne by exact Hne.
      rewrite (Hrest c (a :: q) Hnew). symmetry.
      change (S ++ c :: a :: q) with (S ++ [c] ++ a :: q). rewrite app_assoc.
      apply (closed_below_file d0 S (a :: q) c data); [exact Hc | | discriminate].
      rewrite <- (Hsrc [c]). exact Hrd.
Qed.

Lemma listdir_returns_dir (p : string) (w w' : World) (l : list string) :
  os.listdir p w = (w', Returns l) -> os.stat (disk w) (os.resolve p) = Some Dir.
Proof.
  unfold os.listdir. destruct (negb (Str.truthy p)); [discriminate|].
  destruct (os.parent_error (disk w) (os.resolve p)); [discriminate|].
  destruct (os.stat (disk w) (os.resolve p)) as [[x|]|]; try discriminate. reflexivity.
Qed.

(** The entry [c] of a copy, once it is written: what is below it, and
    itself when both sides are directories. *)
Lemma entry_of_copy (d0 d' : gmap (list string) node) (S D : path) (c : string) :
  copy_of d0 (S ++ [c]) d' (D ++ [c]) ->
  os.stat d' (D ++ [c]) = Some Dir -> os.stat d0 (S ++ [c]) = Some Dir ->
  forall q : path, d' !! (D ++ c :: q) = d0 !! (S ++ c :: q).
Proof.
  unfold path in *. intros Hcopy Hd Hs [|a q].
  - rewrite stat_snoc in Hd, Hs. now rewrite Hd, Hs.
  - change (D ++ c :: a :: q) with (D ++ [c] ++ a :: q).
    change (S ++ c :: a :: q) with (S ++ [c] ++ a :: q).
    rewrite !app_assoc. now apply Hcopy.
Qed.

Section CopyLoop.
Variable fuel : nat.
Hypothesis copytree_from_copies_fuel :
  forall (src dst : string) (d0 : gmap (list string) node) (w w' : World),
    closed_disk d0 -> proper_disk (disk w) ->
    ~ comparable (os.resolve src) (os.resolve dst) ->
    (forall q : path, disk w !! (os.resolve src ++ q) = d0 !! (os.resolve src ++ q)) ->
    (forall q : path, q <> [] -> disk w !! (os.resolve dst ++ q) = None) ->
    shutil.copytree_from fuel src dst w = (w', Returns tt) ->
    copy_of d0 (os.resolve src) (disk w') (os.resolve dst) /\
    os.stat (disk w') (os.resolve dst) = Some Dir /\
    os.stat d0 (os.resolve src) = Some Dir.

(** Once an entry has failed, the loop of [copytree] ends as failed. *)
Lemma copytree_flag (src dst : string) (l : list string) (w w' : World) (f : bool) :
  for_fold l true (fun failed name =>
    let srcname := posixpath.join src name in
    let dstname := posixpath.join dst name in
    is_dir <- os.isdir srcname ;;
    try_except
      ((if is_dir : bool then shutil.copytree_from fuel srcname dstname
        else shutil.copyfile srcname dstname) ;; ret failed)
      (fun e => if is_IOError e then ret true else raise e)) w = (w', Returns f) ->
  f = true.
Proof.
  revert w. induction l as [|c l IH]; intros w H.
  - simpl in H. unfold ret in H. now inversion H.
  - cbn [for_fold] in H.
    apply bind_inv in H as [(w1 & f' & Hbody & H) | (e & _ & He)]; [|discriminate He].
    assert (f' = true) as ->; [|exact (IH _ H)].
    cbv zeta in Hbody.
    apply bind_inv in Hbody as [(w0 & b & _ & Hbody) | (e & _ & He)]; [|discriminate He].
    unfold try_except in Hbody.
    match type of Hbody with
    | (match ?m w0 with _ => _ end) = _ => destruct (m w0) as [w2 [x|e]] eqn:Hin
    end.
    + inversion Hbody; subst.
      apply bind_inv in Hin as [(w3 & [] & _ & Hin) | (e & _ & He)]; [|discriminate He].
      unfold ret in Hin. now inversion Hin.
    + destruct (is_IOError e); [|discriminate Hbody].
      unfold ret in Hbody. now inversion Hbody.
Qed.

Lemma copytree_loop (src dst : string) (d0 : gmap (list string) node) (l : list string) :
  closed_disk d0 ->
  ~ comparable (os.resolve src) (os.resolve dst) ->
  forall (done : list string) (w w' : World),
    copying d0 (os.resolve src) (os.resolve dst) done (disk w) ->
    Forall proper_name l -> NoDup l -> (forall c, c ∈ l -> c ∉ done) ->
    for_fold l false (fun failed name =>
      let srcname := posixpath.join src name in
      let dstname := posixpath.join dst name in
      is_dir <- os.isdir srcname ;;
      try_except
        ((if is_dir : bool then shutil.copytree_from fuel srcname dstname
          else shutil.copyfile srcname dstname) ;; ret failed)
        (fun e => if is_IOError e then ret true else raise e)) w = (w', Returns false) ->
    exists done' : list string,
      copying d0 (os.resolve src) (os.resolve dst) done' (disk w') /\
      (forall c, c ∈ l \/ c ∈ done -> c ∈ done').
Proof.
  intros Hc Hn. set (S := os.resolve src). set (D := os.resolve dst).
  induction l as [|c l IH]; intros done w w' Hcp Hl Hnd Hnew H.
  - simpl in H. unfold ret in H. inversion H; subst w'. exists done. split; [exact Hcp|].
    intros c [Hin | Hin]; [now apply elem_of_nil in Hin | exact Hin].
  - cbn [for_fold] in H.
    apply bind_inv in H as [(w1 & f' & Hbody & H) | (e & _ & He)]; [|discriminate He].
    cbv zeta in Hbody.
    apply bind_inv in Hbody as [(w0 & b & Hb & Hbody) | (e & _ & He)]; [|discriminate He].
    unfold os.isdir in Hb. inversion Hb; subst w0 b. clear Hb.
    unfold try_except in Hbody.
    match type of Hbody with
    | (match ?m w with _ => _ end) = _ => destruct (m w) as [w2 [x|e]] eqn:Hin
    end.
    2:{ destruct (is_IOError e); [|discriminate Hbody].
        unfold ret in Hbody. inversion Hbody; subst.
        apply copytree_flag in H. discriminate H. }
    inversion Hbody; subst w2 x. clear Hbody.
    apply bind_inv in Hin as [(w3 & [] & Hcopy & Hin) | (e & _ & He)]; [|discriminate He].
    unfold ret in Hin. inversion Hin; subst w3 f'. clear Hin.
    apply Forall_cons in Hl as [Hname Hl]. apply NoDup_cons in Hnd as [Hc_l Hnd].
    assert (Hc_done : c ∉ done) by (apply Hnew; left).
    assert (Es : os.resolve (posixpath.join src c) = S ++ [c])
      by now apply resolve_join_proper.
    assert (Ed : os.resolve (posixpath.join dst c) = D ++ [c])
      by now apply resolve_join_proper.
    pose proof Hcp as (Hp & Hsrc & HD & Hdone & Hrest).
    assert (Hstep : writes_in (around (D ++ [c])) (disk w) (disk w1) /\
                    forall q : path, disk w1 !! (D ++ c :: q) = d0 !! (S ++ c :: q)).
    { destruct (os.isdir_key (disk w) (os.resolve (posixpath.join src c))).
      - split.
        + eapply (confined_copytree_from _ (around_proper (D ++ [c])));
            [|exact Hp|exact Hcopy].
          rewrite Ed. apply zone_around.
        + apply copytree_from_copies_fuel with (d0 := d0) in Hcopy
            as (Hcopy & Hdir & Hsdir); try assumption.
          * rewrite Es, Ed in *. now apply entry_of_copy.
          * rewrite Es, Ed. now apply apart_below.
          * intros q. rewrite Es, <- app_assoc. apply Hsrc.
          * intros q Hq. rewrite Ed, <- app_assoc. apply Hrest. exact Hc_done.
      - eapply copyfile_entry; eauto. }
    destruct Hstep as [Hw Hentry].
    pose proof (copying_step _ _ _ _ _ _ _ Hn Hcp Hc_done Hw Hentry) as Hcp1.
    destruct (IH (c :: done) w1 w' Hcp1 Hl Hnd) as (done' & Hcp' & Hsub); [|exact H|].
    + intros c' Hin Hin'. apply elem_of_cons in Hin' as [-> | Hin']; [contradiction|].
      apply (Hnew c'); [now right | exact Hin'].
    + exists done'. split; [exact Hcp'|]. intros c' [Hin | Hin]; apply Hsub.
      * apply elem_of_cons in Hin as [-> | Hin]; [right; left | now left].
      * right. now right.
Qed.

End CopyLoop.

(** [copytree_from], when it returns, has made [dst] a copy of [src]:
    the source is as [d0] has it and closed, and nothing was below
    [dst]. *)
Lemma copytree_from_copies (fuel : nat) :
  forall (src dst : string) (d0 : gmap (list string) node) (w w' : World),
    closed_disk d0 -> proper_disk (disk w) ->
    ~ comparable (os.resolve src) (os.resolve dst) ->
    (forall q : path, disk w !! (os.resolve src ++ q) = d0 !! (os.resolve src ++ q)) ->
    (forall q : path, q <> [] -> disk w !! (os.resolve dst ++ q) = None) ->
    shutil.copytree_from fuel src dst w = (w', Returns tt) ->
    copy_of d0 (os.resolve src) (disk w') (os.resolve dst) /\
    os.stat (disk w') (os.resolve dst) = Some Dir /\
    os.stat d0 (os.resolve src) = Some Dir.
Proof.
  induction fuel as [|fuel IH]; intros src dst d0 w w' Hc Hp Hn Hsrc Hvac H;
    [discriminate H|].
  unfold path in *. set (S := os.resolve src) in *. set (D := os.resolve dst) in *.
  cbn [shutil.copytree_from] in H.
  apply bind_inv in H as [(w0 & names & Hls & H) | (e & _ & He)]; [|discriminate He].
  pose proof (listdir_returns_dir _ _ _ _ Hls) as HSdir. fold S in HSdir.
  pose proof (listdir_proper _ _ _ _ Hp Hls) as Hnames.
  apply listdir_spec in Hls as [-> Hl]. specialize (Hl _ eq_refl). fold S in Hl.
  apply bind_inv in H as [(w1 & [] & Hmk & H) | (e & _ & He)]; [|discriminate He].
  apply bind_inv in H as [(w2 & failed & Hloop & H) | (e & _ & He)]; [|discriminate He].
  destruct failed; [discriminate H|]. unfold ret in H. inversion H; subst w2. clear H.
  assert (Hcp : copying d0 S D [] (disk w1)).
  { repeat split.
    - eapply writes_in_proper; [apply (around_proper D) | exact Hp|].
      eapply (confined_makedirs_zone (around D) D);
        [apply zone_around | apply comparable_refl | exact Hp | exact Hmk].
    - intros q. rewrite (makedirs_outside _ _ _ _ _ Hmk); [apply Hsrc|].
      fold D. intros Hpre. apply Hn. left. etrans; [|exact Hpre]. now apply prefix_app_r.
    - apply (makedirs_returns_dir _ _ _ Hmk).
    - intros c q Hin. now apply elem_of_nil in Hin.
    - intros c q _. rewrite (makedirs_outside _ _ _ _ _ Hmk).
      + apply Hvac. discriminate.
      + fold D. apply below_not_prefix. discriminate. }
  destruct (copytree_loop fuel IH src dst d0 names Hc Hn [] w1 w' Hcp Hnames)
    as (done' & Hcp' & Hsub); [| |exact Hloop|].
  { rewrite Hl. apply NoDup_elements. }
  { intros c _ Hin. now apply elem_of_nil in Hin. }
  fold S D in Hcp'. repeat split.
  - apply (copying_done _ _ _ _ _ Hc Hcp'). intros c Hout.
    rewrite <- Hsrc. apply eq_None_not_Some. intros Hs. apply Hout, Hsub. left.
    rewrite Hl. apply elem_of_elements. now apply elem_of_children.
  - now destruct Hcp' as (_ & _ & HD & _).
  - pose proof (Hsrc []) as E. rewrite app_nil_r in E.
    destruct S as [|a S']; [reflexivity|]. simpl in *.
    exact (eq_trans (eq_sym E) HSdir).
Qed.

(** ** The loop of [expand_to_dir] *)

(** One entry of the staging tree goes to the schedule directory. *)
Lemma copy_out_entry (temp_dir schedule_path : string) (d0 : gmap (list string) node)
    (done : list string) (c : string) (w w' : World) :
  closed_disk d0 ->
  ~ comparable (os.resolve temp_dir) (os.resolve schedule_path) ->
  copying d0 (os.resolve temp_dir) (os.resolve schedule_path) done (disk w) ->
  proper_name c -> c ∉ done ->
  ewsx.copy_out temp_dir schedule_path c w = (w', Returns tt) ->
  writes_in (around (os.resolve schedule_path ++ [c])) (disk w) (disk w') /\
  forall q : path,
    disk w' !! (os.resolve schedule_path ++ c :: q) = d0 !! (os.resolve temp_dir ++ c :: q).
Proof.
  intros Hc Hn Hcp Hname Hnew H. unfold path in *.
  set (S := os.resolve temp_dir) in *. set (D := os.resolve schedule_path) in *.
  pose proof Hcp as (Hp & Hsrc & HD & Hdone & Hrest).
  assert (Es : os.resolve (posixpath.join temp_dir c) = S ++ [c])
    by now apply resolve_join_proper.
  assert (Ed : os.resolve (posixpath.join schedule_path c) = D ++ [c])
    by now apply resolve_join_proper.
  unfold ewsx.copy_out in H. destruct (unzip.is_directory c).
  - apply bind_inv in H as [(wa & [] & Hmk & H) | (e & _ & He)]; [|discriminate He].
    apply mkdir_returns in Hmk as [_ ->]. rewrite Ed in H.
    assert (Hw1 : writes_in (around (D ++ [c])) (disk w)
                    (<[D ++ [c] := Dir]> (disk w))).
    { apply writes_in_insert.
      - split; [rewrite <- Ed; apply resolve_proper | apply comparable_refl].
      - pose proof (Hrest c [] Hnew) as E. unfold path in *.
        intros E'. exact (eq_ind None (fun o => match o with None => True | _ => False end) I _ (eq_trans (eq_sym E) E')). }
    assert (Hpa : proper_disk (<[D ++ [c] := Dir]> (disk w)))
      by (eapply writes_in_proper; [apply around_proper | exact Hp | exact Hw1]).
    unfold shutil.copytree in H.
    assert (Hw2 : writes_in (around (D ++ [c])) (<[D ++ [c] := Dir]> (disk w)) (disk w')).
    { refine (confined_copytree_from _ (around_proper (D ++ [c])) _ _ _ _
                (set_disk (<[D ++ [c] := Dir]> (disk w)) w) _ _ Hpa H).
      rewrite Ed. apply zone_around. }
    split; [eapply writes_in_trans; eauto|].
    apply copytree_from_copies with (d0 := d0) in H as (Hcopy & Hdir & Hsdir);
      try assumption.
    + rewrite Es, Ed in *. now apply entry_of_copy.
    + rewrite Es, Ed. now apply apart_below.
    + intros q. rewrite Es. simpl. rewrite lookup_insert_ne.
      * rewrite <- app_assoc. apply Hsrc.
      * intros E. apply (apart_below S D ([c] ++ q) c Hn).
        rewrite app_assoc, <- E. apply comparable_refl.
    + intros q Hq. rewrite Ed. simpl. rewrite lookup_insert_ne.
      * rewrite <- app_assoc. apply Hrest. exact Hnew.
      * intros E. rewrite <- (app_nil_r (D ++ [c])) in E at 1.
        apply app_inv_head in E. congruence.
  - unfold shutil.copy in H.
    apply bind_inv in H as [(w0 & b & Hb & H) | (e & _ & He)]; [|discriminate He].
    unfold os.isdir in Hb. inversion Hb; subst w0 b. clear Hb.
    fold D in H. unfold os.isdir_key in H. rewrite HD in H.
    rewrite basename_join_proper in H by exact Hname.
    eapply copyfile_entry; eauto.
Qed.

Lemma copy_out_loop (temp_dir schedule_path : string) (d0 : gmap (list string) node)
    (l : list string) :
  closed_disk d0 ->
  ~ comparable (os.resolve temp_dir) (os.resolve schedule_path) ->
  forall (done : list string) (w w' : World),
    copying d0 (os.resolve temp_dir) (os.resolve schedule_path) done (disk w) ->
    Forall proper_name l -> NoDup l -> (forall c, c ∈ l -> c ∉ done) ->
    for_each l (ewsx.copy_out temp_dir schedule_path) w = (w', Returns tt) ->
    exists done' : list string,
      copying d0 (os.resolve temp_dir) (os.resolve schedule_path) done' (disk w') /\
      (forall c, c ∈ l \/ c ∈ done -> c ∈ done').
Proof.
  intros Hc Hn. induction l as [|c l IH]; intros done w w' Hcp Hl Hnd Hnew H.
  - simpl in H. unfold ret in H. inversion H; subst w'. exists done. split; [exact Hcp|].
    intros c [Hin | Hin]; [now apply elem_of_nil in Hin | exact Hin].
  - cbn [for_each] in H.
    apply bind_inv in H as [(w1 & [] & Hentry & H) | (e & _ & He)]; [|discriminate He].
    apply Forall_cons in Hl as [Hname Hl]. apply NoDup_cons in Hnd as [Hc_l Hnd].
    assert (Hc_done : c ∉ done) by (apply Hnew; left).
    destruct (copy_out_entry _ _ _ _ _ _ _ Hc Hn Hcp Hname Hc_done Hentry) as [Hw He].
    pose proof (copying_step _ _ _ _ _ _ _ Hn Hcp Hc_done Hw He) as Hcp1.
    destruct (IH (c :: done) w1 w' Hcp1 Hl Hnd) as (done' & Hcp' & Hsub); [|exact H|].
    + intros c' Hin Hin'. apply elem_of_cons in Hin' as [-> | Hin']; [contradiction|].
      apply (Hnew c'); [now right | exact Hin'].
    + exists done'. split; [exact Hcp'|]. intros c' [Hin | Hin]; apply Hsub.
      * apply elem_of_cons in Hin as [-> | Hin]; [right; left | now left].
      * right. now right.
Qed.

(** The body of the [with] block, when it returns, has made the schedule
    directory a copy of the staging tree. *)
Lemma materialize_copies (self : ewsx.EWSXFIle) (output_dir temp_dir : string)
    (target : path) (w w' : World) (sp : string) :
  schedule_target (disk w) (os.resolve output_dir) = target ->
  ~ comparable (os.resolve output_dir) (os.resolve temp_dir) ->
  staging_safe self ->
  proper_disk (disk w) -> closed_disk (disk w) ->
  (forall k : path, target `prefix_of` k -> disk w !! k = None) ->
  ewsx.materialize self output_dir temp_dir w = (w', Returns sp) ->
  exists wc,
    ewsx.stage self temp_dir w = (wc, Returns tt) /\
    copy_of (disk wc) (os.resolve temp_dir) (disk w') target.
Proof.
  intros Htarget Hout Hsafe Hp Hc Hvac H. unfold path in *.
  set (tmp := os.resolve temp_dir) in *. set (out := os.resolve output_dir) in *.
  assert (Hapart : ~ comparable tmp target).
  { intros Hc'. apply Hout. apply comparable_sym in Hc'. rewrite <- Htarget in Hc'.
    unfold schedule_target in Hc'. now apply comparable_snoc in Hc'. }
  unfold ewsx.materialize in H.
  apply bind_inv in H as [(wc & [] & Hstage & H) | (e & _ & He)]; [|discriminate He].
  exists wc. split; [exact Hstage|].
  assert (Hw1 : writes_in (around tmp) (disk w) (disk wc)).
  { eapply (confined_stage _ (around_proper tmp)); eauto. apply zone_around. }
  assert (Hp1 : proper_disk (disk wc))
    by (eapply writes_in_proper; [apply (around_proper tmp) | exact Hp | exact Hw1]).
  pose proof (keeps_closed_stage _ _ _ _ _ Hc Hstage) as Hc1.
  apply bind_inv in H as [(w2 & entries & Hls & H) | (e & _ & He)]; [|discriminate He].
  apply listdir_spec in Hls as [-> Hentries]. specialize (Hentries _ eq_refl).
  fold out in Hentries.
  assert (Hch : os.children (disk wc) out = os.children (disk w) out).
  { apply (children_frame _ _ _ _ Hw1). intros c [_ Hc'].
    apply Hout. apply comparable_snoc in Hc'. exact Hc'. }
  rewrite Hch in Hentries.
  assert (Hsp : os.resolve (posixpath.join output_dir
                   ("schedule" +:+ ewsx.str (length entries + 1))) = target).
  { rewrite resolve_join_proper by apply schedule_name_proper.
    rewrite Hentries. exact Htarget. }
  remember (posixpath.join output_dir ("schedule" +:+ ewsx.str (length entries + 1)))
    as schedule_path eqn:Esp.
  apply bind_inv in H as [(w2 & [] & Hmk & H) | (e & _ & He)]; [|discriminate He].
  apply bind_inv in H as [(w3 & staged & Hls & H) | (e & _ & He)]; [|discriminate He].
  assert (Hp2 : proper_disk (disk w2)).
  { eapply writes_in_proper; [apply (around_proper target) | exact Hp1|].
    eapply (confined_makedirs_zone (around target) target);
      [apply zone_around | rewrite Hsp; apply comparable_refl | exact Hp1 | exact Hmk]. }
  pose proof (listdir_proper _ _ _ _ Hp2 Hls) as Hnames.
  apply listdir_spec in Hls as [-> Hl]. specialize (Hl _ eq_refl). fold tmp in Hl.
  apply bind_inv in H as [(w4 & [] & Hloop & H) | (e & _ & He)]; [|discriminate He].
  unfold ret in H. inversion H; subst w4 sp. clear H.
  assert (Hcp : copying (disk wc) tmp (os.resolve schedule_path) [] (disk w2)).
  { repeat split.
    - exact Hp2.
    - intros q. apply (makedirs_outside _ _ _ _ _ Hmk). rewrite Hsp.
      intros Hpre. apply Hapart. left. etrans; [|exact Hpre]. now apply prefix_app_r.
    - apply (makedirs_returns_dir _ _ _ Hmk).
    - intros c q Hin. now apply elem_of_nil in Hin.
    - intros c q _. rewrite (makedirs_outside _ _ _ _ _ Hmk)
        by (apply below_not_prefix; discriminate).
      rewrite Hsp. destruct (Hw1 (target ++ c :: q)) as [E | ([_ Hc'] & _)].
      + rewrite E. apply Hvac. now apply prefix_app_r.
      + exfalso. apply (apart_app target tmp (c :: q)); [|exact Hc'].
        intros Hx. apply Hapart. now apply comparable_sym. }
  destruct (copy_out_loop temp_dir schedule_path (disk wc) staged Hc1) with
    (done := @nil string) (w := w2) (w' := w') as (done' & Hcp' & Hsub); try assumption.
  { fold tmp. now rewrite Hsp. }
  { rewrite Hl. apply NoDup_elements. }
  { intros c _ Hin. now apply elem_of_nil in Hin. }
  fold tmp in Hcp'. rewrite Hsp in Hcp', Hcp.
  apply (copying_done _ _ _ _ _ Hc1 Hcp'). intros c Hmiss.
  destruct Hcp as (_ & Hsrc & _). rewrite <- Hsrc.
  apply eq_None_not_Some. intros Hs. apply Hmiss, Hsub. left.
  rewrite Hl. apply elem_of_elements. now apply elem_of_children.
Qed.

(** The [with] block as a whole: the temporary directory is made, the
    tree is staged there and copied, and the clean-up leaves the copy. *)
Lemma temporary_materialize_copies (self : ewsx.EWSXFIle) (output_dir : string)
    (w w' : World) (sp : string) :
  proper_disk (disk w) -> closed_disk (disk w) ->
  staging_safe self ->
  (forall c, c ∈ temp_candidates w -> ~ comparable (os.resolve output_dir) (os.resolve c)) ->
  (forall k : path, schedule_target (disk w) (os.resolve output_dir) `prefix_of` k ->
                    disk w !! k = None) ->
  tempfile.TemporaryDirectory (ewsx.materialize self output_dir) w = (w', Returns sp) ->
  exists (name : string) (wb wc : World),
    tempfile.mkdtemp w = (wb, Returns name) /\
    ewsx.stage self name wb = (wc, Returns tt) /\
    copy_of (disk wc) (os.resolve name) (disk w')
            (schedule_target (disk w) (os.resolve output_dir)).
Proof.
  intros Hp Hc Hsafe Hcand Hvac H. unfold path in *.
  set (out := os.resolve output_dir) in *.
  unfold tempfile.TemporaryDirectory in H.
  apply bind_inv in H as [(wb & name & Hmk & H) | (e & _ & He)]; [|discriminate He].
  pose proof (keeps_closed_mkdtemp_from _ _ _ _ Hc Hmk) as Hcb.
  pose proof Hmk as Hmk'.
  apply mkdtemp_from_returns in Hmk' as (Hfree & Hdb & Hin).
  apply stat_None_not_root in Hfree as [_ Hfree].
  pose proof (Hcand _ Hin) as Hout. set (tmp := os.resolve name) in *.
  set (target := schedule_target (disk w) out) in *.
  assert (Hapart : ~ comparable tmp target).
  { intros Hc'. apply Hout. apply comparable_sym in Hc'.
    unfold target, schedule_target in Hc'. now apply comparable_snoc in Hc'. }
  assert (Hpb : proper_disk (disk wb)).
  { rewrite Hdb. eapply (writes_in_proper (fun k => Forall proper_name k)); [auto | exact Hp|].
    apply writes_in_insert; [apply resolve_proper | congruence]. }
  assert (Hch : os.children (disk wb) out = os.children (disk w) out).
  { apply children_same. intros c. rewrite Hdb. apply lookup_insert_ne.
    intros E. apply Hout. left. rewrite E. now apply prefix_app_r. }
  unfold finally in H.
  destruct (ewsx.materialize self output_dir name wb) as [w2 r2] eqn:Hm.
  inversion H; subst w' r2. clear H.
  apply (materialize_copies _ _ _ target) in Hm as (wc & Hstage & Hcopy); try assumption.
  - exists name, wb, wc. repeat split; [exact Hmk | exact Hstage|].
    intros q Hq. simpl. fold tmp. rewrite rmtree_key_lookup_other; [now apply Hcopy|].
    intros Hpre. apply Hapart.
    apply (prefix_weak_total tmp target (target ++ q)); [exact Hpre | now apply prefix_app_r].
  - unfold target, schedule_target. fold out. now rewrite Hch.
  - intros k Hk. rewrite Hdb, lookup_insert_ne; [now apply Hvac|].
    intros <-. apply Hapart. now right.
Qed.
